(** * Resumable download: a shallow embedding of [src/mod.ts]

    The development follows the one exported function, [download], top to
    bottom: the request-header parser ([range]), the response-header parser
    ([contentRange]), the byte counters and the truncating [transform], the
    background retry loop, and the mutation of the caller's [init] object.

    The platform operations the function calls are given their standard
    meaning, each stated where it is defined:
    - ECMAScript: [Number], [String.prototype.indexOf], [substring],
      [startsWith], template-literal number printing, [||], [??],
      object spread, [TypedArray.prototype.subarray];
    - Fetch: [Headers] (case-insensitive names, values joined by [", "]);
    - Streams: [pipeTo] and its three [prevent...] options, [abort] and
      [close] of a writable stream.

    A session is played against a script of network attempts: what each
    [fetch] answers, how each body ends, and whether the caller's signal
    is aborted when a failure is caught.  The asynchronous function and
    its background task are run in program order against that script.

    Numbers are the IEEE 754 doubles of the source, through the Standard
    Library's specification of binary floating point ([SpecFloat], at
    precision 53): [+] and [-] round to the nearest double, ties to even;
    [Number_] is StringToNumber on the whole StringNumericLiteral
    grammar, [toString] is Number::toString in radix 10, with the
    shortest decimal that reads back and, of several, the nearest.
    [Int z] is the Number value for the integer [z]: [z] itself up to
    magnitude [2^53], the nearest double beyond.

    [init.headers] is taken in its plain-object form, with names and values
    that [Headers] accepts. *)

From Stdlib Require Import ZArith String Ascii List Lia DecimalString.
From Stdlib Require Import SpecFloat.
From stdpp Require Import gmap strings list.
From Stdlib Require DecimalPos.

Local Open Scope Z_scope.
Local Open Scope string_scope.

(** ** ECMAScript values used by the source *)

Module JS.

(** A JavaScript number is an IEEE 754 binary64 value: the Standard
    Library's specification of binary floating point, at precision 53
    and maximal exponent 1024.  NaN has no payload here, as none is
    observable in ECMAScript. *)
Definition number : Type := spec_float.

Definition prec : Z := 53.
Definition emax : Z := 1024.

Definition NaN : number := S754_nan.
Definition Infinity : number := S754_infinity false.
Definition NegInfinity : number := S754_infinity true.

(** The Number value for an integer: the integer itself when a double
    holds it, the nearest double (ties to even) otherwise. *)
Definition Int (z : Z) : number := binary_normalize prec emax z 0 false.

Definition neg (a : number) : number := SFopp a.

(** [a + b] on numbers. *)
Definition add (a b : number) : number := SFadd prec emax a b.

(** [a - b] on numbers. *)
Definition sub (a b : number) : number := SFsub prec emax a b.

(** ToBoolean on a number: the zeros and [NaN] are falsy. *)
Definition truthy (a : number) : bool :=
  match a with
  | S754_zero _ | S754_nan => false
  | _ => true
  end.

(** [a || b] where both operands are numbers. *)
Definition or_else (a b : number) : number := if truthy a then a else b.

Definition same (a b : number) : bool :=
  match a, b with
  | S754_zero s, S754_zero s' => Bool.eqb s s'
  | S754_infinity s, S754_infinity s' => Bool.eqb s s'
  | S754_nan, S754_nan => true
  | S754_finite s m e, S754_finite s' m' e' =>
      Bool.eqb s s' && Pos.eqb m m' && Z.eqb e e'
  | _, _ => false
  end.

(** An integer or one of the infinities, the result of
    ToIntegerOrInfinity. *)
Inductive integer_or_infinity : Type :=
| Finite (z : Z)
| PlusInfinity
| MinusInfinity.

(** ToIntegerOrInfinity: [NaN] and the zeros are [0], a finite number
    is truncated towards zero. *)
Definition ToIntegerOrInfinity (a : number) : integer_or_infinity :=
  match a with
  | S754_nan | S754_zero _ => Finite 0
  | S754_infinity false => PlusInfinity
  | S754_infinity true => MinusInfinity
  | S754_finite s m e => Finite (cond_Zopp s (Z.shiftl (Zpos m) e))
  end.

Definition Z_to_string (z : Z) : string := NilZero.string_of_int (Z.to_int z).

(** *** Reading numbers: StringToNumber *)

(** The Number value for the decimal [m * 10^k], [m] not negative, with
    the sign [neg]: rounded to the nearest double, ties to even. *)
Definition of_decimal (neg : bool) (m : Z) (k : Z) : number :=
  if Z.eqb m 0 then S754_zero neg
  else if Z.leb 0 k then binary_normalize prec emax (cond_Zopp neg (m * 10 ^ k)) 0 false
  else
    let '(q, e, l) := SFdiv_core_binary prec emax m 0 (10 ^ (- k)) 0 in
    binary_round_aux prec emax neg q e l.

(** White space stripped by StringToNumber (the code units below 256). *)
Definition is_white (c : ascii) : bool :=
  let n := N_of_ascii c in
  ((9 <=? n) && (n <=? 13) || (n =? 32) || (n =? 160))%N.

Fixpoint drop_white (s : list ascii) : list ascii :=
  match s with
  | c :: s' => if is_white c then drop_white s' else s
  | [] => []
  end.

Definition trim (s : string) : string :=
  string_of_list_ascii
    (rev (drop_white (rev (drop_white (list_ascii_of_string s))))).

Definition digit_of (c : ascii) : option Z :=
  let n := Z.of_N (N_of_ascii c) in
  if (Z.leb 48 n) && (Z.leb n 57) then Some (n - 48) else None.

(** The value of a digit in radix 2, 8 or 16. *)
Definition digit_in (radix : Z) (c : ascii) : option Z :=
  let n := Z.of_N (N_of_ascii c) in
  let v := if (Z.leb 48 n) && (Z.leb n 57) then n - 48
           else if (Z.leb 97 n) && (Z.leb n 102) then n - 87
           else if (Z.leb 65 n) && (Z.leb n 70) then n - 55
           else radix in
  if Z.ltb v radix then Some v else None.

(** A string of digits in a radix, read whole. *)
Fixpoint digits_in (radix : Z) (acc : Z) (s : string) : option Z :=
  match s with
  | EmptyString => Some acc
  | String c s' =>
      match digit_in radix c with
      | Some d => digits_in radix (radix * acc + d) s'
      | None => None
      end
  end.

Fixpoint digits (acc : Z) (s : string) : option Z :=
  match s with
  | EmptyString => Some acc
  | String c s' =>
      match digit_of c with
      | Some d => digits (10 * acc + d) s'
      | None => None
      end
  end.

(** The decimal digits a string begins with: their value after [acc],
    their number after [n], and the rest of the string. *)
Fixpoint read_digits (acc : Z) (n : Z) (s : string) : Z * Z * string :=
  match s with
  | EmptyString => (acc, n, s)
  | String c s' =>
      match digit_of c with
      | Some d => read_digits (10 * acc + d) (n + 1) s'
      | None => (acc, n, s)
      end
  end.

(** SignedInteger: one or more digits after an optional sign. *)
Definition signed_integer (s : string) : option Z :=
  match s with
  | EmptyString => None
  | String "+"%char EmptyString | String "-"%char EmptyString => None
  | String "+"%char d => digits 0 d
  | String "-"%char d => option_map Z.opp (digits 0 d)
  | d => digits 0 d
  end.

(** ExponentPart, or nothing. *)
Definition exponent (s : string) : option Z :=
  match s with
  | EmptyString => Some 0
  | String c d =>
      if Ascii.eqb c "e" || Ascii.eqb c "E" then signed_integer d else None
  end.

(** StrUnsignedDecimalLiteral other than [Infinity]: digits, an
    optional point and digits, an optional exponent; one digit at
    least before the exponent. *)
Definition decimal (neg : bool) (s : string) : number :=
  let '(i, ni, r1) := read_digits 0 0 s in
  let '(m, nf, r2) :=
    match r1 with
    | String "."%char r => read_digits i 0 r
    | _ => (i, 0, r1)
    end in
  if Z.eqb (ni + nf) 0 then NaN
  else match exponent r2 with
       | Some e => of_decimal neg m (e - nf)
       | None => NaN
       end.

Definition unsigned (neg : bool) (s : string) : number :=
  if String.eqb s "Infinity" then S754_infinity neg else decimal neg s.

(** NonDecimalIntegerLiteral: [0x], [0o] or [0b] in either case, and
    one digit or more. *)
Definition radix_literal (s : string) : option Z :=
  match s with
  | String "0"%char (String c (String d r)) =>
      let n := N_of_ascii c in
      let radix := if ((n =? 120) || (n =? 88))%N then 16
                   else if ((n =? 111) || (n =? 79))%N then 8
                   else if ((n =? 98) || (n =? 66))%N then 2
                   else 0 in
      if Z.eqb radix 0 then None else digits_in radix 0 (String d r)
  | _ => None
  end.

(** [Number(s)] for a string [s]: white space is trimmed, the empty
    string is [0], a decimal literal may carry a sign, anything that is
    no numeric literal is [NaN]. *)
Definition Number_ (s : string) : number :=
  match trim s with
  | EmptyString => Int 0
  | String "+"%char r => unsigned false r
  | String "-"%char r => unsigned true r
  | t => match radix_literal t with
         | Some v => Int v
         | None => unsigned false t
         end
  end.

(** [Number(v)] where [v] is a string or [null]: [Number(null)] is [0]. *)
Definition Number_nullable (v : option string) : number :=
  match v with
  | Some s => Number_ s
  | None => Int 0
  end.

(** *** Printing numbers: Number::toString in radix 10 *)

(** [a * 10^n] for [n] that is not negative, [a] otherwise. *)
Definition scale (a n : Z) : Z := if Z.ltb 0 n then a * 10 ^ n else a.

(** The [n] with [10^(n-1) <= p / q < 10^n], found from any [n] by
    steps of one. *)
Fixpoint magnitude (fuel : nat) (p q : Z) (n : Z) : Z :=
  match fuel with
  | O => n
  | S fuel' =>
      if Z.ltb (scale p (1 - n)) (scale q (n - 1)) then magnitude fuel' p q (n - 1)
      else if Z.leb (scale q n) (scale p (- n)) then magnitude fuel' p q (n + 1)
      else n
  end.

(** The [k]-digit decimals next to [p / q], which lies in
    [10^(n-1) .. 10^n): the one below and the one above, each kept when
    it reads back as [x]; of two that do, the nearer, and the even one
    when they are as near.  The result is [(s, n)] for the decimal
    [s * 10^(n - k)] with [10^(k-1) <= s < 10^k]. *)
Definition nearest_decimal (x : number) (p q : Z) (n k : Z) : option (Z * Z) :=
  let t := n - k in
  let p' := scale p (- t) in
  let q' := scale q t in
  let lo := p' / q' in
  let hi := lo + 1 in
  let reads s := same (of_decimal false s t) x in
  let pick :=
    match reads lo, reads hi with
    | true, true =>
        match Z.compare (p' - lo * q') (hi * q' - p') with
        | Lt => Some lo
        | Gt => Some hi
        | Eq => Some (if Z.even lo then lo else hi)
        end
    | true, false => Some lo
    | false, true => Some hi
    | false, false => None
    end in
  match pick with
  | Some s => if Z.eqb s (10 ^ k) then Some (10 ^ (k - 1), n + 1) else Some (s, n)
  | None => None
  end.

(** The shortest decimal that reads back as [x]: the number of digits
    is tried from [k] upwards. *)
Fixpoint shortest (fuel : nat) (x : number) (p q : Z) (n k : Z) : Z * Z :=
  match fuel with
  | O => (scale p (k - n) / scale q (n - k), n)
  | S fuel' =>
      match nearest_decimal x p q n k with
      | Some r => r
      | None => shortest fuel' x p q n (k + 1)
      end
  end.

Fixpoint zeros (n : nat) : string :=
  match n with
  | O => ""
  | S n' => String "0" (zeros n')
  end.

Fixpoint first_chars (n : nat) (s : string) : string :=
  match n, s with
  | S n', String c s' => String c (first_chars n' s')
  | _, _ => ""
  end.

Fixpoint after_chars (n : nat) (s : string) : string :=
  match n, s with
  | S n', String _ s' => after_chars n' s'
  | _, _ => s
  end.

(** The digits [ds] of a decimal whose point stands after [n] of them,
    as Number::toString lays them out. *)
Definition layout (ds : string) (n : Z) : string :=
  let k := Z.of_nat (String.length ds) in
  if Z.leb k n && Z.leb n 21 then ds +:+ zeros (Z.to_nat (n - k))
  else if Z.ltb 0 n && Z.leb n 21 then
    first_chars (Z.to_nat n) ds +:+ "." +:+ after_chars (Z.to_nat n) ds
  else if Z.ltb (-6) n && Z.leb n 0 then "0." +:+ zeros (Z.to_nat (- n)) +:+ ds
  else
    let e := n - 1 in
    let es := (if Z.ltb e 0 then "-" else "+") +:+ Z_to_string (Z.abs e) in
    if Z.eqb k 1 then ds +:+ "e" +:+ es
    else first_chars 1 ds +:+ "." +:+ after_chars 1 ds +:+ "e" +:+ es.

(** Number::toString, as used by a template literal [`${n}`]. *)
Definition toString (a : number) : string :=
  match a with
  | S754_nan => "NaN"
  | S754_zero _ => "0"
  | S754_infinity s => if s then "-Infinity" else "Infinity"
  | S754_finite s m e =>
      let p := Z.shiftl (Zpos m) (Z.max e 0) in
      let q := Z.shiftl 1 (Z.max (- e) 0) in
      let n := magnitude 700 p q ((Z.log2 p - Z.log2 q) * 3 / 10) in
      let '(d, n) := shortest 17 (S754_finite false m e) p q n 1 in
      (if s then "-" else "") +:+ layout (Z_to_string d) n
  end.

(** *** Strings and arrays *)

(** [s.indexOf(t)]: the first position of [t] in [s], or [-1]. *)
Definition indexOf (s t : string) : Z :=
  match String.index 0 t s with
  | Some n => Z.of_nat n
  | None => -1
  end.

Definition clamp (len : nat) (i : Z) : nat := Z.to_nat (Z.min (Z.max i 0) (Z.of_nat len)).

(** [s.substring(a, b)]; [b = None] is an omitted or [undefined] second
    argument.  Both ends are clamped to [0 .. length] and swapped when
    out of order. *)
Definition substring (s : string) (a : Z) (b : option Z) : string :=
  let len := String.length s in
  let i := clamp len a in
  let j := match b with Some b => clamp len b | None => len end in
  let from := Nat.min i j in
  let to := Nat.max i j in
  String.substring from (to - from) s.

(** [s.startsWith(p)] *)
Definition startsWith (s p : string) : bool := String.prefix p s.

(** [chunk.subarray(0, end)] on a [Uint8Array]: [end] goes through
    ToIntegerOrInfinity; a negative [end] counts from the end of the
    array; the result is clamped to the array. *)
Definition subarray (chunk : list Byte.byte) (end_ : number) : list Byte.byte :=
  let len := Z.of_nat (length chunk) in
  let final :=
    match ToIntegerOrInfinity end_ with
    | Finite z => if Z.ltb z 0 then Z.max (len + z) 0 else Z.min z len
    | PlusInfinity => len
    | MinusInfinity => 0
    end in
  take (Z.to_nat final) chunk.

End JS.

Export JS.

(** ** Fetch: header lists, plain objects used as [HeadersInit], responses *)

Module Fetch.

(** A plain object with string values (the [Record<string, string>]
    form of [HeadersInit]): its own keys in insertion order, each key
    once, keys compared exactly. *)
Definition object : Type := list (string * string).

(** Defining property [k] in an object literal or by assignment: an
    existing key keeps its place and takes the new value, a new key goes
    last. *)
Fixpoint set_prop (k v : string) (o : object) : object :=
  match o with
  | [] => [(k, v)]
  | (k', v') :: o' =>
      if String.eqb k' k then (k', v) :: o' else (k', v') :: set_prop k v o'
  end.

(** A header list, in order, names in their original case. *)
Definition Headers : Type := list (string * string).

Definition lower (c : ascii) : ascii :=
  let n := N_of_ascii c in
  if ((65 <=? n) && (n <=? 90))%N then ascii_of_N (n + 32) else c.

Fixpoint lowercase (s : string) : string :=
  match s with
  | EmptyString => EmptyString
  | String c s' => String (lower c) (lowercase s')
  end.

(** HTTP white space, stripped from both ends of a header value when it
    enters a [Headers] object. *)
Definition is_http_white (c : ascii) : bool :=
  let n := N_of_ascii c in
  ((n =? 9) || (n =? 10) || (n =? 13) || (n =? 32))%N.

Fixpoint drop_http_white (s : list ascii) : list ascii :=
  match s with
  | c :: s' => if is_http_white c then drop_http_white s' else s
  | [] => []
  end.

Definition normalize (v : string) : string :=
  string_of_list_ascii
    (rev (drop_http_white (rev (drop_http_white (list_ascii_of_string v))))).

(** [new Headers(o)]: every property is appended with its value
    normalized. *)
Definition new_Headers (o : object) : Headers :=
  map (fun kv => (fst kv, normalize (snd kv))) o.

Fixpoint join (vs : list string) : string :=
  match vs with
  | [] => ""
  | [v] => v
  | v :: vs' => v +:+ ", " +:+ join vs'
  end.

(** [h.get(name)]: the values of all headers whose name matches [name]
    without regard to case, joined by [", "]; [null] when there is none. *)
Definition get (h : Headers) (name : string) : option string :=
  match List.filter (fun kv => String.eqb (lowercase (fst kv)) (lowercase name)) h with
  | [] => None
  | hs => Some (join (map snd hs))
  end.

(** How a response body stream ends after its chunks were read:
    cleanly; with an error of the body itself (connection lost, fetch
    aborted through the signal); or because the consumer cancelled the
    readable side of the output channel while the body was being
    piped. *)
Inductive body_end : Type :=
| EndOfStream
| BodyErrors
| ConsumerCancels.

Record Body : Type := {
  chunks : list (list Byte.byte);
  ending : body_end;
}.

Record Response : Type := {
  status : Z;
  statusText : string;
  headers : Headers;
  body : option Body;
}.

(** What one call of [fetch] does. *)
Inductive fetch_outcome : Type :=
| NetworkError
| Responds (r : Response).

(** One network attempt as the environment plays it: the outcome of
    [fetch], and the value of [init.signal?.aborted] at the moment the
    [catch] clause of this attempt would read it. *)
Record attempt : Type := {
  outcome : fetch_outcome;
  signal_aborted : bool;
}.

End Fetch.

Export Fetch.

(** ** The function [download] *)

Module Download.

(** *** The caller's [init] object, held in a store *)

Definition loc : Type := positive.

Record RequestInit : Type := {
  init_headers : option object;
  init_method : option string;
}.

Definition read_headers (h : gmap loc RequestInit) (l : loc) : option object :=
  match h !! l with
  | Some i => init_headers i
  | None => None
  end.

(** [init.headers = o] *)
Definition write_headers (l : loc) (o : object) (h : gmap loc RequestInit)
  : gmap loc RequestInit :=
  alter (fun i => {| init_headers := Some o; init_method := init_method i |}) l h.

(** *** The output channel and what is observed of a session *)

Inductive channel_state : Type :=
| Writable
| Closed
| Errored.

(** What an errored channel stores, and hands to whoever reads the
    readable side: the error of a response body, the reason the consumer
    gave when cancelling, or the reason of a call of [writable.abort]. *)
Inductive error : Type :=
| BodyError
| ConsumerReason
| Message (reason : string).

Inductive event : Type :=
| EvFetch (h : option object)        (* fetch(url, init), with init.headers *)
| EvCancelBody                       (* response.body.cancel() *)
| EvEnqueue (chunk : list Byte.byte) (size budget : number)
                                     (* controller.enqueue(chunk), with the
                                        values of currentSize and bytesLeft
                                        right after lines 108-109 *)
| EvPipeAbort                        (* pipeTo aborts its destination *)
| EvClose                            (* writable.close() *)
| EvAbort (reason : string)          (* writable.abort(reason) *)
| EvDelay (ms : Z).                  (* delay(retryDelay) *)

Record session : Type := {
  currentSize : number;
  bytesLeft : number;
  heap : gmap loc RequestInit;
  channel : channel_state;
  storedError : option error;
  trace : list event;
}.

Definition log (e : event) (s : session) : session :=
  {| currentSize := currentSize s; bytesLeft := bytesLeft s; heap := heap s;
     channel := channel s; storedError := storedError s;
     trace := trace s ++ [e] |}.

Definition set_channel (c : channel_state) (s : session) : session :=
  {| currentSize := currentSize s; bytesLeft := bytesLeft s; heap := heap s;
     channel := c; storedError := storedError s; trace := trace s |}.

Definition set_heap (h : gmap loc RequestInit) (s : session) : session :=
  {| currentSize := currentSize s; bytesLeft := bytesLeft s; heap := h;
     channel := channel s; storedError := storedError s; trace := trace s |}.

(** A writable channel becomes errored and stores [e]. *)
Definition fail (e : error) (s : session) : session :=
  {| currentSize := currentSize s; bytesLeft := bytesLeft s; heap := heap s;
     channel := Errored; storedError := Some e; trace := trace s |}.

(** [writable.abort(reason)]: a writable stream becomes errored and
    stores the reason; on a stream that is closed or errored already the
    call changes nothing. *)
Definition abort (reason : string) (s : session) : session :=
  let s' := log (EvAbort reason) s in
  match channel s with
  | Writable => fail (Message reason) s'
  | _ => s'
  end.

(** [response.body?.cancel()] *)
Definition cancel_body (r : Response) (s : session) : session :=
  match body r with
  | Some _ => log EvCancelBody s
  | None => s
  end.

(** *** Lines 63-72: the caller's [Range] request header *)

Record Range : Type := { start : number; end_ : number }.

Definition range (o : option object) : option Range :=
  match get (new_Headers (default [] o)) "range" with
  | None => None
  | Some range =>
      let dashIndex := indexOf range "-" in
      let commaIndex :=
        let m := Z.max (indexOf range ",") 0 in
        if Z.eqb m 0 then None else Some m in
      Some {| start := Number_ (substring range 0 (Some dashIndex));
              end_ := Number_ (substring range (dashIndex + 1) commaIndex) |}
  end.

(** *** Lines 73-93: the response's [Content-Range] header *)

Record ContentRange : Type := {
  cr_start : number;
  cr_end : number;
  cr_total : number;
}.

(** [inl msg] is the thrown [TypeError]. *)
Definition contentRange (r : Response) : string + option ContentRange :=
  match get (headers r) "content-range" with
  | None => inr None
  | Some contentRange =>
      if negb (startsWith contentRange "bytes ") then
        inl ("Content-Range header has unsupported unit: " +:+ contentRange)
      else
        let dashIndex := indexOf contentRange "-" in
        let slashIndex := indexOf contentRange "/" in
        let totalSize := substring contentRange slashIndex None in
        inr (Some {|
          cr_start := Number_ (substring contentRange 6 (Some dashIndex));
          cr_end := Number_ (substring contentRange (dashIndex + 1) (Some slashIndex));
          cr_total := if String.eqb totalSize "*" then Infinity
                      else Number_ contentRange |})
  end.

(** *** Lines 95-98: the two counters *)

Definition initial_currentSize (cr : option ContentRange) : number :=
  match cr with
  | Some c => cr_start c
  | None => Int 0
  end.

Definition initial_bytesLeft (r : Response) (cr : option ContentRange) : number :=
  match cr with
  | None => or_else (Number_nullable (get (headers r) "content-length")) Infinity
  | Some c => sub (cr_end c) (cr_start c)
  end.

(** *** Lines 100-114: the pump *)

(** Lines 106-111, the [transform] callback applied to one chunk. *)
Definition transform (s : session) (chunk : list Byte.byte) : session :=
  let chunk := subarray chunk (bytesLeft s) in
  let n := Int (Z.of_nat (length chunk)) in
  let size := add (currentSize s) n in
  let budget := sub (bytesLeft s) n in
  {| currentSize := size; bytesLeft := budget; heap := heap s;
     channel := channel s; storedError := storedError s;
     trace := trace s ++ [EvEnqueue chunk size budget] |}.

Inductive completion : Type :=
| Normal
| Throws.

(** Lines 103-114:
    [body.pipeThrough(new TransformStream({transform})).pipeTo(writable,
    { preventClose: true, preventCancel: true })].

    By the Streams standard [pipeTo] takes three such options, each
    [false] when left out:
    - [preventClose]: set, so a body that ends leaves [writable] open;
    - [preventCancel]: set, so an errored [writable] does not cancel the
      body;
    - [preventAbort]: left out, so when the piped stream errors, [pipeTo]
      aborts [writable] with that error before its promise rejects.
    A consumer who cancels the readable side of the channel errors its
    writable side with the reason given.  A destination that is errored
    already makes the promise reject at once, with nothing read from
    the source. *)
Definition pipe (s : session) (b : Body) : session * completion :=
  match channel s with
  | Writable =>
      let s' := fold_left transform (chunks b) s in
      match ending b with
      | EndOfStream => (s', Normal)
      | BodyErrors => (fail BodyError (log EvPipeAbort s'), Throws)
      | ConsumerCancels => (fail ConsumerReason s', Throws)
      end
  | _ => (s, Throws)
  end.

(** Lines 102-116, the [try] block: the pump, then [writable.close()],
    which rejects on a stream that is not writable.  A response without
    a body skips the pump ([response.body?.]). *)
Definition try_block (s : session) (r : Response) : session * completion :=
  let '(s1, c) := match body r with
                  | Some b => pipe s b
                  | None => (s, Normal)
                  end in
  match c with
  | Throws => (s1, Throws)
  | Normal =>
      match channel s1 with
      | Writable => (set_channel Closed (log EvClose s1), Normal)
      | _ => (log EvClose s1, Throws)
      end
  end.

(** *** Lines 120-125: the headers of a retry *)

(** [`bytes=${currentSize}-${range?.end ?? ""}`] *)
Definition retry_range (size : number) (range : option Range) : string :=
  "bytes=" +:+ toString size +:+ "-" +:+
  match range with
  | Some r => toString (end_ r)
  | None => ""
  end.

(** [{ ...init.headers, range: ..., "if-match": etag ?? "" }] *)
Definition retry_headers (o : option object) (size : number)
    (range : option Range) (etag : option string) : object :=
  set_prop "if-match" (default "" etag)
    (set_prop "range" (retry_range size range) (default [] o)).

(** *** Lines 100-133: the background loop *)

(** What is fixed when the loop starts. *)
Record context : Type := {
  init : loc;
  retryDelay : Z;
  etag : option string;
  requested : option Range;
}.

(** How the background task stands when the environment has played all
    its attempts: it returned; a retry's [fetch] rejected, which nothing
    catches; or it is waiting for a [fetch] the environment has not
    played. *)
Inductive loop_end : Type :=
| NotStarted
| Returned
| Unhandled
| AwaitingFetch.

Definition status_message (r : Response) : string :=
  "Status Code (" +:+ Z_to_string (status r) +:+ ") wasn't 206".

Fixpoint loop (c : context) (s : session) (response : Response)
    (aborted : bool) (env : list attempt)
  : session * loop_end * list attempt :=
  match try_block s response with
  | (s1, Normal) => (s1, Returned, env)                       (* line 116 *)
  | (s1, Throws) =>
      if aborted then (s1, Returned, env)                      (* line 118 *)
      else
        let s2 := log (EvDelay (retryDelay c)) s1 in           (* line 120 *)
        let o := retry_headers (read_headers (heap s2) (init c))
                   (currentSize s2) (requested c) (etag c) in
        let s3 := set_heap (write_headers (init c) o (heap s2)) s2 in
        match env with
        | [] => (s3, AwaitingFetch, [])
        | a :: env' =>
            let s4 := log (EvFetch (read_headers (heap s3) (init c))) s3 in
            match outcome a with
            | NetworkError => (s4, Unhandled, env')
            | Responds r =>
                if Z.eqb (status r) 206
                then loop c s4 r (signal_aborted a) env'
                else (abort (status_message r) (cancel_body r s4),
                      Returned, env')                          (* lines 127-131 *)
            end
        end
  end.

(** *** Lines 40-136: [download] *)

Inductive rejection : Type :=
| FetchFailed
| TypeError (message : string).

(** The promise [download] returns: rejected, or resolved with the
    headers (the readable side of the channel goes with them). *)
Inductive settled : Type :=
| Rejected (why : rejection)
| Resolved (h : Headers).

Record run : Type := {
  promise : settled;
  final_heap : gmap loc RequestInit;
  final_channel : channel_state;
  final_error : option error;
  events : list event;
  counters : option (number * number);
  background : loop_end;
  unused : list attempt;
}.

Definition accepted (st : Z) : bool :=
  Z.eqb st 200 || Z.eqb st 201 || Z.eqb st 206.

Definition invalid_status_message (r : Response) : string :=
  "Invalid Status Code (" +:+ Z_to_string (status r) +:+ "): " +:+ statusText r.

Definition download (h : gmap loc RequestInit) (l : loc) (retryDelay : Z)
    (first : attempt) (env : list attempt) : run :=
  (* line 45 *)
  let h := write_headers l (default [] (read_headers h l)) h in
  (* line 46 *)
  let tr := [EvFetch (read_headers h l)] in
  match outcome first with
  | NetworkError =>
      {| promise := Rejected FetchFailed; final_heap := h;
         final_channel := Writable; final_error := None; events := tr;
         counters := None;
         background := NotStarted; unused := env |}
  | Responds response =>
      let s := {| currentSize := Int 0; bytesLeft := Int 0; heap := h;
                  channel := Writable; storedError := None; trace := tr |} in
      if negb (accepted (status response)) then
        (* lines 54-59 *)
        let s := abort (invalid_status_message response)
                   (cancel_body response s) in
        {| promise := Resolved (headers response); final_heap := heap s;
           final_channel := channel s; final_error := storedError s;
           events := trace s; counters := None;
           background := NotStarted; unused := env |}
      else
        (* lines 62-93 *)
        let etag := get (headers response) "etag" in
        let range := range (read_headers h l) in
        match contentRange response with
        | inl message =>
            {| promise := Rejected (TypeError message); final_heap := h;
               final_channel := Writable; final_error := None; events := tr;
         counters := None;
               background := NotStarted; unused := env |}
        | inr contentRange =>
            (* lines 95-98 *)
            let s := {| currentSize := initial_currentSize contentRange;
                        bytesLeft := initial_bytesLeft response contentRange;
                        heap := h; channel := Writable; storedError := None;
                        trace := tr |} in
            (* lines 100-133 *)
            let c := {| init := l; retryDelay := retryDelay; etag := etag;
                        requested := range |} in
            let '(s, e, rest) := loop c s response (signal_aborted first) env in
            {| promise := Resolved (headers response); final_heap := heap s;
               final_channel := channel s; final_error := storedError s;
               events := trace s;
               counters := Some (currentSize s, bytesLeft s);
               background := e; unused := rest |}
        end
  end.

(** [download(url)] with [init] left out: the default [{}] is a fresh
    object no caller holds. *)
Definition download_default_init (h : gmap loc RequestInit) (retryDelay : Z)
    (first : attempt) (env : list attempt) : run :=
  let l := fresh (dom h) in
  download (<[l := {| init_headers := None; init_method := None |}]> h)
    l retryDelay first env.

(** The bytes that reached the output channel, in order. *)
Fixpoint delivered (tr : list event) : list Byte.byte :=
  match tr with
  | [] => []
  | EvEnqueue chunk _ _ :: tr' => chunk ++ delivered tr'
  | _ :: tr' => delivered tr'
  end.

(** The requests a session issued, by their headers object. *)
Fixpoint requests (tr : list event) : list (option object) :=
  match tr with
  | [] => []
  | EvFetch h :: tr' => h :: requests tr'
  | _ :: tr' => requests tr'
  end.

Definition len (chunk : list Byte.byte) : Z := Z.of_nat (length chunk).

(** The counters recorded with each delivered chunk follow from the
    counters before it: starting from [currentSize = c] and
    [bytesLeft = l], a chunk of [n] bytes leaves [c + n] and [l - n],
    their sum is [E], and the chunk is no longer than the budget
    ([n <= l]), so that the budget does not become negative. *)
Fixpoint budget_kept (E c l : Z) (tr : list event) : Prop :=
  match tr with
  | [] => True
  | EvEnqueue chunk size budget :: tr' =>
      let n := len chunk in
      size = Int (c + n) /\ budget = Int (l - n)
      /\ (c + n) + (l - n) = E
      /\ n <= l
      /\ budget_kept E (c + n) (l - n) tr'
  | _ :: tr' => budget_kept E c l tr'
  end.

(** [o[k]], an own property of a plain object. *)
Fixpoint prop (o : object) (k : string) : option string :=
  match o with
  | [] => None
  | (k', v) :: o' => if String.eqb k' k then Some v else prop o' k
  end.

(** The caller's [init] object [i] with [headers] replaced by [o]. *)
Definition with_headers (i : RequestInit) (o : object) : RequestInit :=
  {| init_headers := Some o; init_method := init_method i |}.

(** The headers objects of successive retries: each is the previous one
    rebuilt by lines 121-125. *)
Fixpoint rebuilds (rg : option Range) (etag : option string)
    (prev : object) (qs : list object) : Prop :=
  match qs with
  | [] => True
  | q :: qs' =>
      (exists size, q = retry_headers (Some prev) size rg etag)
      /\ rebuilds rg etag q qs'
  end.

(** What holds of a session whose counters started at [c0] and [l0], with
    [E] their sum. *)
Definition tracked (E c0 l0 : Z) (s : session) : Prop :=
  let D := len (delivered (trace s)) in
  currentSize s = Int (c0 + D)
  /\ bytesLeft s = Int (l0 - D)
  /\ budget_kept E c0 l0 (trace s)
  /\ (0 <= l0 -> D <= l0).

(** [response.body?.cancel()] as it shows in the trace. *)
Definition cancel_events (r : Response) : list event :=
  match body r with
  | Some _ => [EvCancelBody]
  | None => []
  end.

(** Line 62 for the first attempt of a session. *)
Definition first_etag (first : attempt) : option string :=
  match outcome first with
  | Responds r => get (headers r) "etag"
  | NetworkError => None
  end.

(** The [Range] header [fetch] sends for a headers object. *)
Definition sent_range (o : option object) : option string :=
  get (new_Headers (default [] o)) "range".

End Download.

Export Download.

(** ** Concrete sessions *)

Module Examples.

(** Ten bytes, all different: [0x00 .. 0x09]. *)
Definition resource10 : list Byte.byte :=
  [Byte.x00; Byte.x01; Byte.x02; Byte.x03; Byte.x04;
   Byte.x05; Byte.x06; Byte.x07; Byte.x08; Byte.x09].

Definition bytes (n : nat) : list Byte.byte := repeat Byte.x2a n.

(** The caller's [init] lives at location 1. *)
Definition here : loc := 1%positive.

Definition heap_with (o : option object) : gmap loc RequestInit :=
  {[ here := {| init_headers := o; init_method := Some "GET" |} ]}.

Definition plays (r : Response) : attempt :=
  {| outcome := Responds r; signal_aborted := false |}.

Definition plays_aborted (r : Response) : attempt :=
  {| outcome := Responds r; signal_aborted := true |}.

(** [206] with [Content-Range: bytes 0-9/10] and the ten bytes as one
    chunk, ending cleanly. *)
Definition whole_range : Response :=
  {| status := 206; statusText := "Partial Content";
     headers := [("content-range", "bytes 0-9/10")];
     body := Some {| chunks := [resource10]; ending := EndOfStream |} |}.

(** [206] with [Content-Range: bytes 100-199/200] whose body errors
    after thirty bytes. *)
Definition interrupted : Response :=
  {| status := 206; statusText := "Partial Content";
     headers := [("content-range", "bytes 100-199/200"); ("etag", "v1")];
     body := Some {| chunks := [bytes 30]; ending := BodyErrors |} |}.

(** The server's answer to the resumed request. *)
Definition resumed : Response :=
  {| status := 206; statusText := "Partial Content";
     headers := [("content-range", "bytes 130-199/200"); ("etag", "v1")];
     body := Some {| chunks := [bytes 70]; ending := EndOfStream |} |}.

(** [206] whose [Content-Range] names another unit. *)
Definition other_unit : Response :=
  {| status := 206; statusText := "Partial Content";
     headers := [("content-range", "items 0-9/10")];
     body := Some {| chunks := [resource10]; ending := EndOfStream |} |}.

(** The same thirty bytes, but it is the consumer who cancels the
    readable side while they are piped. *)
Definition consumer_gone : Response :=
  {| status := 206; statusText := "Partial Content";
     headers := [("content-range", "bytes 100-199/200"); ("etag", "v1")];
     body := Some {| chunks := [bytes 30]; ending := ConsumerCancels |} |}.

Definition not_found : Response :=
  {| status := 404; statusText := "Not Found";
     headers := [("content-type", "text/plain")];
     body := Some {| chunks := [bytes 3]; ending := EndOfStream |} |}.

(** [206] whose [Content-Range] ends before it starts, with thirty
    bytes that end cleanly. *)
Definition backwards : Response :=
  {| status := 206; statusText := "Partial Content";
     headers := [("content-range", "bytes 10-5/20")];
     body := Some {| chunks := [bytes 30]; ending := EndOfStream |} |}.

(** [206] for a range that starts at [2^53], with two chunks of one
    byte. *)
Definition beyond_safe : Response :=
  {| status := 206; statusText := "Partial Content";
     headers := [("content-range", "bytes 9007199254740992-9007199254741000/*")];
     body := Some {| chunks := [bytes 1; bytes 1]; ending := EndOfStream |} |}.

Definition with_content_range (v : string) : Response :=
  {| status := 206; statusText := "Partial Content";
     headers := [("content-range", v)]; body := None |}.

End Examples.

Import Examples.

(** ** Predicates of the statements *)

(** A decimal digit, as [Number] reads it. *)
Definition is_digit (c : ascii) : Prop := digit_of c <> None.

(** A character [Headers] does not strip from the ends of a value. *)
Definition plain (c : ascii) : Prop := is_http_white c = false.

(** The entries of a header list that [get] joins for [range]. *)
Definition range_entries (hs : Headers) : Headers :=
  List.filter (fun kv => String.eqb (lowercase (fst kv)) (lowercase "range")) hs.

(** The events a [try] block can add: chunks, the abort [pipeTo]
    performs, and [close]. *)
Definition pump_event (e : event) : Prop :=
  match e with
  | EvEnqueue _ _ _ | EvPipeAbort | EvClose => True
  | _ => False
  end.

(** An errored channel stores what the pump left there: the error of a
    body, or the reason of a consumer who cancelled. *)
Definition pump_error (s : session) : Prop :=
  channel s = Errored ->
  storedError s = Some BodyError \/ storedError s = Some ConsumerReason.


(** An attempt the loop goes on from: the signal is not aborted and the
    server answers [206]. *)
Definition resumable (a : attempt) : Prop :=
  signal_aborted a = false
  /\ exists r, outcome a = Responds r /\ status r = 206.

(** * Theorems *)

(** ** Doubles that hold integers *)

Lemma iter_pos_iter {A : Type} (f : A -> A) (p : positive) (x : A) :
  SpecFloat.iter_pos f p x = Pos.iter f x p.
Proof.
  revert x. induction p as [p IH|p IH|]; intros x; cbn.
  - rewrite !IH. now rewrite <- !Pos.iter_swap.
  - now rewrite !IH.
  - reflexivity.
Qed.

Lemma iter_xO_value (m d : positive) :
  Zpos (Pos.iter xO m d) = Zpos m * 2 ^ Zpos d.
Proof.
  induction d as [|d IH] using Pos.peano_ind.
  - cbn. lia.
  - rewrite Pos.iter_succ, Pos2Z.inj_xO, IH, Pos2Z.inj_succ, Z.pow_succ_r by lia.
    lia.
Qed.

Lemma iter_xO_digits (m d : positive) :
  Zpos (digits2_pos (Pos.iter xO m d)) = Zpos (digits2_pos m) + Zpos d.
Proof.
  induction d as [|d IH] using Pos.peano_ind.
  - cbn. lia.
  - rewrite Pos.iter_succ. cbn [digits2_pos]. rewrite Pos2Z.inj_succ, IH. lia.
Qed.

(** Shifting out the zeros that were shifted in loses nothing. *)
Lemma iter_shr_xO (m d : positive) :
  Pos.iter shr_1 {| shr_m := Zpos (Pos.iter xO m d); shr_r := false; shr_s := false |} d
  = {| shr_m := Zpos m; shr_r := false; shr_s := false |}.
Proof.
  induction d as [|d IH] using Pos.peano_ind.
  - reflexivity.
  - rewrite Pos.iter_succ_r, Pos.iter_succ. cbn [shr_1 orb]. exact IH.
Qed.

(** Rounding a value that a double holds gives that double: [M * 2^E]
    and [m0 * 2^e0] are the same number, and [(m0, e0)] is the form of
    a double. *)
Lemma binary_round_exact (s : bool) (M m0 : positive) (E e0 L : Z) :
  L <= E -> L <= e0 ->
  Zpos M * 2 ^ (E - L) = Zpos m0 * 2 ^ (e0 - L) ->
  canonical_mantissa prec emax m0 e0 = true ->
  e0 <= emax - prec ->
  binary_round prec emax s M E = S754_finite s m0 e0.
Proof.
  intros HE He Hv Hc Hb.
  unfold canonical_mantissa in Hc. apply Z.eqb_eq in Hc.
  assert (Hfin : binary_round_aux prec emax s (Zpos m0) e0 loc_Exact
                 = S754_finite s m0 e0).
  { unfold binary_round_aux, shr_fexp. cbn [Zdigits2 shr_record_of_loc].
    rewrite Hc, Z.sub_diag. cbn [shr shr_m loc_of_shr_record round_nearest_even].
    cbn [Zdigits2]. rewrite Hc, Z.sub_diag. cbn [shr shr_m].
    apply Z.leb_le in Hb. now rewrite Hb. }
  unfold binary_round.
  destruct (Z.compare_spec E e0) as [Heq|Hlt|Hgt].
  - subst e0. apply Z.mul_reg_r in Hv; [|apply Z.pow_nonzero; lia].
    injection Hv as ->. rewrite Hc. unfold shl_align. rewrite Z.sub_diag.
    exact Hfin.
  - (* the mantissa is too long: its low bits are zeros *)
    destruct (e0 - E) as [|d|d] eqn:Hd; try lia.
    assert (HM : M = Pos.iter xO m0 d).
    { apply Pos2Z.inj. rewrite iter_xO_value, <- Hd.
      replace (e0 - L) with ((e0 - E) + (E - L)) in Hv by lia.
      rewrite Z.pow_add_r, Z.mul_assoc in Hv by lia.
      apply Z.mul_reg_r in Hv; [exact Hv | apply Z.pow_nonzero; lia]. }
    assert (Hdig : Zpos (digits2_pos M) + E = Zpos (digits2_pos m0) + e0).
    { rewrite HM, iter_xO_digits. lia. }
    rewrite Hdig, Hc. unfold shl_align. rewrite Hd.
    unfold binary_round_aux, shr_fexp. cbn [Zdigits2 shr_record_of_loc].
    rewrite Hdig, Hc, Hd. cbn [shr]. rewrite iter_pos_iter, HM, iter_shr_xO.
    cbn [shr_m loc_of_shr_record round_nearest_even Zdigits2].
    replace (E + Zpos d) with e0 by lia.
    rewrite Hc, Z.sub_diag. cbn [shr shr_m].
    apply Z.leb_le in Hb. now rewrite Hb.
  - destruct (E - e0) as [|d|d] eqn:Hd; try lia.
    assert (Hm : m0 = Pos.iter xO M d).
    { apply Pos2Z.inj. rewrite iter_xO_value, <- Hd.
      replace (E - L) with ((E - e0) + (e0 - L)) in Hv by lia.
      rewrite Z.pow_add_r, Z.mul_assoc in Hv by lia.
      apply Z.mul_reg_r in Hv; [now symmetry | apply Z.pow_nonzero; lia]. }
    assert (Hdig : Zpos (digits2_pos M) + E = Zpos (digits2_pos m0) + e0).
    { rewrite Hm, iter_xO_digits. lia. }
    rewrite Hdig, Hc. unfold shl_align.
    replace (e0 - E) with (Zneg d) by lia.
    rewrite <- Hm. exact Hfin.
Qed.

Lemma digits2_log2 (p : positive) :
  Zpos (digits2_pos p) = Z.log2 (Zpos p) + 1.
Proof.
  assert (H : forall q, digits2_pos q = Pos.size q).
  { induction q as [q IH|q IH|]; cbn; now rewrite ?IH. }
  rewrite H. destruct p; cbn; lia.
Qed.

Lemma shl_align_value (m : positive) (e e' : Z) :
  e' <= e -> Zpos (fst (shl_align m e e')) = Zpos m * 2 ^ (e - e').
Proof.
  intros H. unfold shl_align.
  destruct (e' - e) as [|d|d] eqn:Hd; try lia; cbn [fst].
  - replace (e - e') with 0 by lia. cbn. lia.
  - rewrite iter_xO_value. f_equal. f_equal. lia.
Qed.

(** The double that holds an integer of magnitude up to [2^53]. *)
Lemma Int_finite (z : Z) :
  z <> 0 -> Z.abs z <= 2 ^ 53 ->
  exists m e,
    Int z = S754_finite (Z.ltb z 0) m e
    /\ -52 <= e <= 1
    /\ Zpos m * 2 ^ (e + 52) = Z.abs z * 2 ^ 52
    /\ canonical_mantissa prec emax m e = true.
Proof.
  intros Hz Hb.
  assert (Hpos : forall (s : bool) (p : positive),
            Zpos p <= 2 ^ 53 ->
            exists m e,
              binary_round prec emax s p 0 = S754_finite s m e
              /\ -52 <= e <= 1
              /\ Zpos m * 2 ^ (e + 52) = Zpos p * 2 ^ 52
              /\ canonical_mantissa prec emax m e = true).
  { intros s p Hp.
    destruct (Z.eq_dec (Zpos p) (2 ^ 53)) as [Heq|Hne].
    - exists (Z.to_pos (2 ^ 52)), 1.
      assert (Hpp : p = Z.to_pos (2 ^ 53)) by (rewrite <- Heq; reflexivity).
      rewrite Hpp. destruct s; vm_compute; repeat split; congruence.
    - set (l := Z.log2 (Zpos p)).
      assert (Hl : 0 <= l < 53).
      { split; [apply Z.log2_nonneg|]. apply Z.log2_lt_pow2; lia. }
      set (m := Z.to_pos (Zpos p * 2 ^ (52 - l))).
      assert (Hm : Zpos m = Zpos p * 2 ^ (52 - l)).
      { subst m. rewrite Z2Pos.id; [reflexivity|].
        apply Z.mul_pos_pos; [lia|]. apply Z.pow_pos_nonneg; lia. }
      assert (Hc : canonical_mantissa prec emax m (l - 52) = true).
      { unfold canonical_mantissa. apply Z.eqb_eq.
        rewrite digits2_log2, Hm, Z.log2_mul_pow2 by lia. fold l.
        unfold fexp, emin, prec, emax. lia. }
      assert (Hv : Zpos m * 2 ^ (l - 52 + 52) = Zpos p * 2 ^ 52).
      { rewrite Hm, <- Z.mul_assoc, <- Z.pow_add_r by lia.
        f_equal. f_equal. lia. }
      exists m, (l - 52). split; [|split; [lia|split; [exact Hv | exact Hc]]].
      apply (binary_round_exact s p m 0 (l - 52) (-52)); try lia.
      + replace (0 - -52) with 52 by lia.
        replace (l - 52 - -52) with (l - 52 + 52) by lia. now rewrite Hv.
      + exact Hc.
      + unfold emax, prec. lia. }
  unfold Int, binary_normalize.
  destruct z as [|p|p]; [congruence| |].
  - destruct (Hpos false p) as (m & e & H); [lia|]. now exists m, e.
  - destruct (Hpos true p) as (m & e & H); [cbn in Hb; lia|]. now exists m, e.
Qed.

Lemma Int_0 : Int 0 = S754_zero false.
Proof. reflexivity. Qed.

(** Sums and differences of integers are exact as long as the operands
    and the result have magnitude [2^53] at most. *)
Lemma finite_sum (sa sb : bool) (ma mb : positive) (ea eb : Z) (a b : Z) :
  -52 <= ea -> -52 <= eb ->
  cond_Zopp sa (Zpos ma) * 2 ^ (ea + 52) = a * 2 ^ 52 ->
  cond_Zopp sb (Zpos mb) * 2 ^ (eb + 52) = b * 2 ^ 52 ->
  Z.abs (a + b) <= 2 ^ 53 ->
  binary_normalize prec emax
    (cond_Zopp sa (Zpos (fst (shl_align ma ea (Z.min ea eb))))
     + cond_Zopp sb (Zpos (fst (shl_align mb eb (Z.min ea eb)))))
    (Z.min ea eb) false
  = Int (a + b).
Proof.
  intros Hea Heb Ha Hb Hsum.
  set (ez := Z.min ea eb).
  assert (Hez : -52 <= ez /\ ez <= ea /\ ez <= eb) by (subst ez; lia).
  rewrite !shl_align_value by lia.
  set (S := cond_Zopp sa _ + cond_Zopp sb _).
  assert (HS : S * 2 ^ (ez + 52) = (a + b) * 2 ^ 52).
  { subst S. rewrite Z.mul_add_distr_r, Z.mul_add_distr_r, <- Ha, <- Hb.
    replace (ea + 52) with ((ea - ez) + (ez + 52)) by lia.
    replace (eb + 52) with ((eb - ez) + (ez + 52)) by lia.
    rewrite (Z.pow_add_r 2 (ea - ez) (ez + 52)),
      (Z.pow_add_r 2 (eb - ez) (ez + 52)) by lia.
    destruct sa, sb; cbn [cond_Zopp]; lia. }
  clearbody S.
  assert (Hp : 0 < 2 ^ (ez + 52)) by (apply Z.pow_pos_nonneg; lia).
  destruct (Z.eq_dec (a + b) 0) as [H0|Hn0].
  - rewrite H0 in *. assert (S = 0) by nia. subst S. reflexivity.
  - destruct (Int_finite (a + b) Hn0 Hsum) as (m0 & e0 & -> & He0 & Hv0 & Hc0).
    destruct S as [|M|M]; cbn [binary_normalize].
    + exfalso. nia.
    + assert (Hs : Z.ltb (a + b) 0 = false) by (apply Z.ltb_ge; nia).
      rewrite Hs.
      apply (binary_round_exact false M m0 ez e0 (-52)); try lia.
      * replace (ez - -52) with (ez + 52) by lia.
        replace (e0 - -52) with (e0 + 52) by lia. rewrite Hv0, HS. f_equal. lia.
      * exact Hc0.
      * unfold emax, prec. lia.
    + assert (Hs : Z.ltb (a + b) 0 = true) by (apply Z.ltb_lt; nia).
      rewrite Hs.
      apply (binary_round_exact true M m0 ez e0 (-52)); try lia.
      * replace (ez - -52) with (ez + 52) by lia.
        replace (e0 - -52) with (e0 + 52) by lia. rewrite Hv0.
        change (Zneg M) with (- Zpos M) in HS. nia.
      * exact Hc0.
      * unfold emax, prec. lia.
Qed.

Lemma Int_signed (z : Z) (s : bool) (m : positive) (e : Z) :
  Z.ltb z 0 = s -> Zpos m * 2 ^ (e + 52) = Z.abs z * 2 ^ 52 ->
  cond_Zopp s (Zpos m) * 2 ^ (e + 52) = z * 2 ^ 52.
Proof.
  intros <- H. destruct (Z.ltb_spec z 0); cbn [cond_Zopp]; nia.
Qed.

Lemma add_Int (a b : Z) :
  Z.abs a <= 2 ^ 53 -> Z.abs b <= 2 ^ 53 -> Z.abs (a + b) <= 2 ^ 53 ->
  add (Int a) (Int b) = Int (a + b).
Proof.
  intros Ha Hb Hab.
  destruct (Z.eq_dec a 0) as [->|Ha0].
  { rewrite Int_0, Z.add_0_l.
    destruct (Z.eq_dec b 0) as [->|Hb0]; [reflexivity|].
    destruct (Int_finite b Hb0 Hb) as (m & e & -> & _). reflexivity. }
  destruct (Z.eq_dec b 0) as [->|Hb0].
  { rewrite Int_0, Z.add_0_r.
    destruct (Int_finite a Ha0 Ha) as (m & e & -> & _). reflexivity. }
  destruct (Int_finite a Ha0 Ha) as (ma & ea & Hia & Hea & Hva & _).
  destruct (Int_finite b Hb0 Hb) as (mb & eb & Hib & Heb & Hvb & _).
  rewrite Hia, Hib. unfold add. cbn [SFadd].
  apply finite_sum; try lia.
  - now apply Int_signed.
  - now apply Int_signed.
Qed.

Lemma binary_round_opp (s : bool) (p : positive) (e : Z) :
  SFopp (binary_round prec emax s p e) = binary_round prec emax (negb s) p e.
Proof.
  unfold binary_round.
  destruct (shl_align p e _) as [mz ez].
  unfold binary_round_aux.
  destruct (shr_fexp prec emax (Zpos mz) ez loc_Exact) as [mrs e'].
  destruct (shr_fexp prec emax _ e' loc_Exact) as [mrs' e''].
  destruct (shr_m mrs') as [|m|m]; [reflexivity| |reflexivity].
  now destruct (Z.leb e'' (emax - prec)).
Qed.

Lemma Int_opp (z : Z) : Int (- z) = (if Z.eqb z 0 then Int 0 else neg (Int z)).
Proof.
  destruct z as [|p|p]; cbn [Z.eqb Z.opp]; [reflexivity| |];
    unfold Int, neg, binary_normalize.
  - now rewrite binary_round_opp.
  - now rewrite binary_round_opp.
Qed.

Lemma sub_Int (a b : Z) :
  Z.abs a <= 2 ^ 53 -> Z.abs b <= 2 ^ 53 -> Z.abs (a - b) <= 2 ^ 53 ->
  sub (Int a) (Int b) = Int (a - b).
Proof.
  intros Ha Hb Hab.
  destruct (Z.eq_dec b 0) as [->|Hb0].
  { rewrite Int_0, Z.sub_0_r.
    destruct (Z.eq_dec a 0) as [->|Ha0]; [reflexivity|].
    destruct (Int_finite a Ha0 Ha) as (m & e & -> & _). reflexivity. }
  destruct (Int_finite b Hb0 Hb) as (mb & eb & Hib & Heb & Hvb & _).
  destruct (Z.eq_dec a 0) as [->|Ha0].
  { rewrite Z.sub_0_l, Int_opp. apply Z.eqb_neq in Hb0. rewrite Hb0.
    rewrite Int_0, Hib. reflexivity. }
  destruct (Int_finite a Ha0 Ha) as (ma & ea & Hia & Hea & Hva & _).
  rewrite Hia, Hib. unfold sub. cbn [SFsub].
  replace (a - b) with (a + - b) by lia.
  rewrite <- (finite_sum (Z.ltb a 0) (negb (Z.ltb b 0)) ma mb ea eb a (- b)); try lia.
  - f_equal. destruct (Z.ltb b 0); cbn [cond_Zopp negb]; lia.
  - now apply Int_signed.
  - destruct (Z.ltb_spec b 0); cbn [cond_Zopp negb]; nia.
Qed.

(** ToIntegerOrInfinity gives such an integer back. *)
Lemma ToIntegerOrInfinity_Int (z : Z) :
  Z.abs z <= 2 ^ 53 -> ToIntegerOrInfinity (Int z) = Finite z.
Proof.
  intros Hb. destruct (Z.eq_dec z 0) as [->|Hz]; [reflexivity|].
  destruct (Int_finite z Hz Hb) as (m & e & -> & He & Hv & _).
  cbn [ToIntegerOrInfinity]. f_equal.
  assert (Hm : Z.shiftl (Zpos m) e = Z.abs z).
  { destruct (Z.le_gt_cases 0 e) as [Hpos|Hneg].
    - rewrite Z.shiftl_mul_pow2 by lia.
      rewrite Z.pow_add_r, Z.mul_assoc in Hv by lia.
      apply Z.mul_reg_r in Hv; [exact Hv | apply Z.pow_nonzero; lia].
    - rewrite Z.shiftl_div_pow2 by lia.
      replace 52 with ((- e) + (e + 52)) in Hv at 2 by lia.
      rewrite (Z.pow_add_r 2 (- e) (e + 52)), Z.mul_assoc in Hv by lia.
      apply Z.mul_reg_r in Hv; [|apply Z.pow_nonzero; lia].
      rewrite Hv. apply Z.div_mul. apply Z.pow_nonzero; lia. }
  rewrite Hm. destruct (Z.ltb_spec z 0); cbn [cond_Zopp]; lia.
Qed.

Lemma Int_inj (a b : Z) :
  Z.abs a <= 2 ^ 53 -> Z.abs b <= 2 ^ 53 -> Int a = Int b -> a = b.
Proof.
  intros Ha Hb H. apply (f_equal ToIntegerOrInfinity) in H.
  rewrite !ToIntegerOrInfinity_Int in H by assumption. now injection H.
Qed.

Lemma truthy_Int (z : Z) :
  Z.abs z <= 2 ^ 53 -> truthy (Int z) = negb (Z.eqb z 0).
Proof.
  intros Hb. destruct (Z.eq_dec z 0) as [->|Hz]; [reflexivity|].
  destruct (Int_finite z Hz Hb) as (m & e & -> & _).
  apply Z.eqb_neq in Hz. now rewrite Hz.
Qed.


(** ** Numbers and strings *)

Lemma drop_white_snoc (x : list ascii) (c : ascii) :
  is_white c = false -> exists y, drop_white (x ++ [c]) = (y ++ [c])%list.
Proof.
  intros Hc. induction x as [|a x IH]; cbn.
  - rewrite Hc. now exists [].
  - destruct (is_white a); [exact IH|]. now exists (a :: x).
Qed.

Lemma trim_keeps_first (c : ascii) (s : string) :
  is_white c = false -> exists s', trim (String c s) = String c s'.
Proof.
  intros Hc. unfold trim. cbn [list_ascii_of_string drop_white]. rewrite Hc.
  cbn [rev]. fold (rev (list_ascii_of_string s)).
  destruct (drop_white_snoc (rev (list_ascii_of_string s)) c Hc) as [y Hy].
  change (List.rev (list_ascii_of_string s) ++ [c])%list
    with (rev (list_ascii_of_string s) ++ [c])%list.
  rewrite Hy, rev_app_distr. cbn. eexists. reflexivity.
Qed.

(** No string that begins with [b] is a numeral. *)
Lemma Number_b (s : string) : Number_ (String "b" s) = NaN.
Proof.
  unfold Number_. destruct (trim_keeps_first "b" s eq_refl) as [s' ->].
  reflexivity.
Qed.

Lemma substring_all (s : string) : String.substring 0 (String.length s) s = s.
Proof. induction s as [|c s IH]; cbn; [reflexivity | now rewrite IH]. Qed.

Lemma substring_one (s : string) :
  forall (n : nat) (c : ascii),
    String.substring n 1 s = String c "" ->
    (n < String.length s)%nat
    /\ forall k, String.substring n (S k) s = String c (String.substring (S n) k s).
Proof.
  induction s as [|a s IH]; intros n c H.
  - destruct n; discriminate H.
  - destruct n as [|n].
    + cbn in H. injection H as -> _. split; [cbn; lia|].
      intros k. reflexivity.
    + cbn in H. destruct (IH n c H) as [Hlt Hk]. split; [cbn; lia|].
      intros k. cbn [String.substring]. apply Hk.
Qed.

Lemma starts_with_b (v p : string) :
  startsWith v (String "b" p) = true -> exists t, v = String "b" t.
Proof.
  unfold startsWith. destruct v as [|c v]; cbn [String.prefix];
    [intros H; discriminate H|].
  destruct (ascii_dec "b" c) as [<-|]; [|intros H; discriminate H].
  intros _. now exists v.
Qed.

(** ** The two header parsers *)

(** C7.  The total of a [Content-Range] header is never read: for
    [bytes 0-9/10] the parsed total is [NaN], not [10], and for
    [bytes 0-9/*] it is [NaN], not [Infinity].  Line 87 keeps the [/] in
    [totalSize], so the comparison with ["*"] on line 91 fails, and line 91
    then converts the whole header instead of [totalSize]. *)
Theorem C7_total_is_NaN :
  contentRange (with_content_range "bytes 0-9/10")
    = inr (Some {| cr_start := Int 0; cr_end := Int 9; cr_total := NaN |})
  /\ contentRange (with_content_range "bytes 0-9/*")
    = inr (Some {| cr_start := Int 0; cr_end := Int 9; cr_total := NaN |}).
Proof. split; vm_compute; reflexivity. Qed.

(** X15.  Lines 73-93, for every header: whatever follows [bytes ], the
    parsed total is [NaN]. *)
Lemma contentRange_total_is_always_NaN (r : Response) (v : string) :
  get (headers r) "content-range" = Some v ->
  startsWith v "bytes " = true ->
  exists s e,
    contentRange r = inr (Some {| cr_start := s; cr_end := e; cr_total := NaN |}).
Proof.
  intros Hget Hpre. unfold contentRange. rewrite Hget, Hpre. cbn [negb].
  destruct (starts_with_b v _ Hpre) as [t ->].
  rewrite Number_b.
  assert (Hstar : String.eqb
            (substring (String "b" t) (indexOf (String "b" t) "/") None) "*"
          = false).
  { unfold substring, indexOf.
    destruct (String.index 0 "/" (String "b" t)) as [n|] eqn:Hix.
    - apply index_correct1 in Hix. cbn [String.length] in Hix.
      destruct (substring_one _ _ _ Hix) as [Hlt Hk].
      unfold clamp.
      replace (Z.to_nat (Z.min (Z.max (Z.of_nat n) 0)
                 (Z.of_nat (String.length (String "b" t))))) with n by lia.
      rewrite Nat.min_l, Nat.max_r by lia.
      destruct (String.length (String "b" t) - n)%nat as [|k] eqn:Hd; [lia|].
      rewrite Hk. reflexivity.
    - unfold clamp. cbn [Z.max Z.min Z.to_nat].
      replace (Z.to_nat (Z.min 0 (Z.of_nat (String.length (String "b" t)))))
        with 0%nat by lia.
      rewrite Nat.min_l, Nat.max_r, Nat.sub_0_r by lia.
      rewrite substring_all. reflexivity. }
  rewrite Hstar. do 2 eexists. reflexivity.
Qed.

(** C8.  The start of a caller's [Range] header is never read, and an
    empty end is read as [0]: [bytes=0-999] parses to start [NaN] (line 69
    converts ["bytes=0"]), and [bytes=100-] parses to end [0] (line 70
    converts the empty string), which is not an absent end.  The end of
    the first segment is read as written, and only that segment is
    looked at: [bytes=5-99, 200-300] has end [99]. *)
Theorem C8_start_is_NaN_and_empty_end_is_zero :
  range (Some [("range", "bytes=0-999")])
    = Some {| start := NaN; end_ := Int 999 |}
  /\ range (Some [("range", "bytes=100-")])
    = Some {| start := NaN; end_ := Int 0 |}
  /\ range (Some [("range", "bytes=5-99, 200-300")])
    = Some {| start := NaN; end_ := Int 99 |}.
Proof. repeat split; vm_compute; reflexivity. Qed.

(** X16.  Lines 63-72, for every header that begins with [bytes=] and
    holds a dash: its start is [NaN], whatever number follows [bytes=]. *)
Lemma range_start_is_always_NaN (o : option object) (v : string) :
  get (new_Headers (default [] o)) "range" = Some v ->
  startsWith v "bytes=" = true ->
  0 < indexOf v "-" ->
  exists e, range o = Some {| start := NaN; end_ := e |}.
Proof.
  intros Hget Hpre Hdash. unfold range. rewrite Hget.
  destruct (starts_with_b v _ Hpre) as [t ->].
  set (d := indexOf (String "b" t) "-") in *.
  assert (Hs : exists t', substring (String "b" t) 0 (Some d) = String "b" t').
  { unfold substring, clamp. cbn [String.length].
    replace (Z.to_nat (Z.min (Z.max 0 0) (Z.of_nat (S (String.length t)))))
      with 0%nat by lia.
    rewrite Nat.min_l, Nat.max_r, Nat.sub_0_r by lia.
    destruct (Z.to_nat (Z.min (Z.max d 0) (Z.of_nat (S (String.length t)))))
      as [|k] eqn:Hk; [lia|].
    cbn. eexists. reflexivity. }
  destruct Hs as [t' ->]. rewrite Number_b. eexists. reflexivity.
Qed.

(** ** The first response *)




(** C3.  A first response whose [Content-Range] does not begin with
    [bytes ]: the [TypeError] of line 81 is thrown inside [download], so
    the returned promise rejects; the output channel is never aborted (it
    stays writable and is not handed to the caller) and nothing is
    forwarded. *)
Theorem C3_other_unit_rejects_the_promise :
  let r := download (heap_with None) here 5000 (plays other_unit) [] in
  promise r
    = Rejected (TypeError "Content-Range header has unsupported unit: items 0-9/10")
  /\ final_channel r = Writable
  /\ events r = [EvFetch (Some [])]
  /\ delivered (events r) = [].
Proof. vm_compute. repeat split; reflexivity. Qed.

(** X17.  Lines 80-83, for every accepted first response whose
    [Content-Range] lacks the prefix [bytes ]: the promise is rejected
    with the [TypeError], the output channel is left as it is, and the
    background loop is never started. *)
Lemma other_unit_always_rejects
    (h : gmap loc RequestInit) (l : loc) (d : Z) (first : attempt)
    (env : list attempt) (r : Response) (v : string) :
  outcome first = Responds r ->
  accepted (status r) = true ->
  get (headers r) "content-range" = Some v ->
  startsWith v "bytes " = false ->
  let run := download h l d first env in
  promise run
    = Rejected (TypeError ("Content-Range header has unsupported unit: " +:+ v))
  /\ final_channel run = Writable
  /\ (exists o, events run = [EvFetch o])
  /\ background run = NotStarted.
Proof.
  intros Hout Hacc Hget Hpre run. subst run. unfold download.
  rewrite Hout, Hacc. cbn [negb]. unfold contentRange. rewrite Hget, Hpre.
  cbn. repeat split. eexists. reflexivity.
Qed.

(** ** The byte counters *)

Lemma delivered_app (t1 t2 : list event) :
  delivered (t1 ++ t2) = (delivered t1 ++ delivered t2)%list.
Proof.
  induction t1 as [|e t1 IH]; [reflexivity|].
  destruct e; cbn; rewrite IH; try reflexivity.
  now rewrite <- app_assoc.
Qed.

Lemma len_app (a b : list Byte.byte) : len (a ++ b) = len a + len b.
Proof. unfold len. rewrite (List.length_app a b). lia. Qed.

Lemma subarray_length (chunk : list Byte.byte) (l : Z) :
  0 <= l <= 2 ^ 53 -> len (subarray chunk (Int l)) = Z.min l (len chunk).
Proof.
  intros Hl. unfold subarray, len.
  rewrite ToIntegerOrInfinity_Int by lia.
  destruct (Z.ltb_spec l 0); [lia|].
  rewrite length_take. lia.
Qed.

(** Lines 107 and 110: with a budget [b] that is not negative, what is
    enqueued is the first [min b length] bytes of the chunk. *)
Lemma transform_truncates (s : session) (chunk : list Byte.byte) (b : Z) :
  bytesLeft s = Int b -> 0 <= b <= 2 ^ 53 ->
  exists size budget,
    trace (transform s chunk)
    = (trace s
       ++ [EvEnqueue (take (Z.to_nat (Z.min b (len chunk))) chunk) size budget])%list.
Proof.
  intros Hb Hpos. unfold transform. cbn [trace]. rewrite Hb.
  unfold subarray. rewrite ToIntegerOrInfinity_Int by lia.
  destruct (Z.ltb_spec b 0); [lia|].
  do 2 eexists. reflexivity.
Qed.

Section Counters.

Variables E c0 l0 : Z.
Hypothesis sum : c0 + l0 = E.
Hypothesis start_not_negative : 0 <= c0.
Hypothesis budget_not_negative : 0 <= l0.
Hypothesis safe : E <= 2 ^ 53.

Lemma budget_kept_app (t1 t2 : list event) (c l : Z) :
  budget_kept E c l (t1 ++ t2)
  <-> budget_kept E c l t1
      /\ budget_kept E (c + len (delivered t1)) (l - len (delivered t1)) t2.
Proof.
  revert c l. induction t1 as [|e t1 IH]; intros c l.
  - cbn. unfold len. cbn. rewrite Z.add_0_r, Z.sub_0_r. tauto.
  - destruct e; cbn [app budget_kept delivered]; try apply IH.
    rewrite IH, len_app.
    replace (c + len chunk + len (delivered t1))
      with (c + (len chunk + len (delivered t1))) by lia.
    replace (l - len chunk - len (delivered t1))
      with (l - (len chunk + len (delivered t1))) by lia.
    tauto.
Qed.

Lemma tracked_transform (s : session) (chunk : list Byte.byte) :
  tracked E c0 l0 s -> tracked E c0 l0 (transform s chunk).
Proof.
  intros (Hc & Hl & Hk & Hn). unfold tracked, transform. cbn.
  rewrite Hc, Hl. rewrite delivered_app. cbn [delivered].
  rewrite app_nil_r, len_app.
  set (D := len (delivered (trace s))) in *.
  set (out := subarray chunk (Int (l0 - D))).
  change (Z.of_nat (length out)) with (len out).
  specialize (Hn budget_not_negative).
  assert (HD : 0 <= D) by (subst D; unfold len; lia).
  assert (Hout : 0 <= len out) by (unfold len; lia).
  assert (Hstep : len out <= l0 - D).
  { subst out. rewrite subarray_length by lia. lia. }
  rewrite add_Int, sub_Int by lia.
  repeat split.
  - f_equal. lia.
  - f_equal. lia.
  - apply budget_kept_app. split; [assumption|]. fold D. cbn.
    repeat split; try reflexivity; lia.
  - intros H0. lia.
Qed.

(** Steps that leave the counters alone and enqueue nothing. *)
Lemma tracked_quiet (s s' : session) :
  currentSize s' = currentSize s -> bytesLeft s' = bytesLeft s ->
  (trace s' = trace s
   \/ exists e, trace s' = (trace s ++ [e])%list
                /\ forall ch a b, e <> EvEnqueue ch a b) ->
  tracked E c0 l0 s -> tracked E c0 l0 s'.
Proof.
  intros Hc Hl Ht (H1 & H2 & H3 & H4). unfold tracked.
  destruct Ht as [Ht | (e & Ht & He)]; rewrite Hc, Hl, Ht.
  - repeat split; assumption.
  - assert (Hd : delivered (trace s ++ [e]) = delivered (trace s)).
    { rewrite delivered_app. destruct e; cbn; try apply app_nil_r.
      now destruct (He chunk size budget). }
    rewrite Hd. repeat split; try assumption.
    apply budget_kept_app. split; [assumption|].
    destruct e; cbn; try exact I. now destruct (He chunk size budget).
Qed.

Lemma tracked_log (e : event) (s : session) :
  (forall ch a b, e <> EvEnqueue ch a b) ->
  tracked E c0 l0 s -> tracked E c0 l0 (log e s).
Proof.
  intros He. apply tracked_quiet; try reflexivity.
  right. exists e. split; [reflexivity | exact He].
Qed.

Lemma tracked_set_channel (c : channel_state) (s : session) :
  tracked E c0 l0 s -> tracked E c0 l0 (set_channel c s).
Proof. apply tracked_quiet; try reflexivity. now left. Qed.

Lemma tracked_fail (e : error) (s : session) :
  tracked E c0 l0 s -> tracked E c0 l0 (fail e s).
Proof. apply tracked_quiet; try reflexivity. now left. Qed.

Lemma tracked_set_heap (h : gmap loc RequestInit) (s : session) :
  tracked E c0 l0 s -> tracked E c0 l0 (set_heap h s).
Proof. apply tracked_quiet; try reflexivity. now left. Qed.

Lemma tracked_fold (cs : list (list Byte.byte)) (s : session) :
  tracked E c0 l0 s -> tracked E c0 l0 (fold_left transform cs s).
Proof.
  revert s. induction cs as [|c cs IH]; intros s Hs; [exact Hs|].
  cbn. apply IH. now apply tracked_transform.
Qed.

Lemma tracked_pipe (s : session) (b : Body) :
  tracked E c0 l0 s -> tracked E c0 l0 (fst (pipe s b)).
Proof.
  intros Hs. unfold pipe. destruct (channel s); [|exact Hs|exact Hs].
  pose proof (tracked_fold (chunks b) s Hs) as Hf.
  destruct (ending b); cbn [fst].
  - exact Hf.
  - apply tracked_fail, tracked_log; [discriminate | exact Hf].
  - apply tracked_fail, Hf.
Qed.

Lemma tracked_try_block (s : session) (r : Response) :
  tracked E c0 l0 s -> tracked E c0 l0 (fst (try_block s r)).
Proof.
  intros Hs. unfold try_block.
  assert (H1 : tracked E c0 l0
                 (fst (match body r with
                       | Some b => pipe s b
                       | None => (s, Normal)
                       end))).
  { destruct (body r); [now apply tracked_pipe | exact Hs]. }
  destruct (match body r with Some b => pipe s b | None => (s, Normal) end)
    as [s1 c]. cbn [fst] in H1.
  destruct c; [|exact H1].
  destruct (channel s1); cbn [fst].
  - apply tracked_set_channel, tracked_log; [discriminate | exact H1].
  - apply tracked_log; [discriminate | exact H1].
  - apply tracked_log; [discriminate | exact H1].
Qed.

Lemma tracked_refuse (m : string) (r : Response) (s : session) :
  tracked E c0 l0 s -> tracked E c0 l0 (abort m (cancel_body r s)).
Proof.
  intros Hs.
  assert (Hc : tracked E c0 l0 (cancel_body r s)).
  { unfold cancel_body.
    destruct (body r); [apply tracked_log; [discriminate | exact Hs] | exact Hs]. }
  unfold abort.
  destruct (channel (cancel_body r s)); try apply tracked_fail;
    (apply tracked_log; [discriminate | exact Hc]).
Qed.

(** The retries never touch the counters: whatever the environment plays,
    the loop keeps them tracked. *)
Lemma tracked_loop (c : context) (env : list attempt) :
  forall (s : session) (r : Response) (aborted : bool),
    tracked E c0 l0 s -> tracked E c0 l0 (fst (fst (loop c s r aborted env))).
Proof.
  induction env as [|a env IH]; intros s r aborted Hs; cbn [loop];
    pose proof (tracked_try_block s r Hs) as Ht;
    destruct (try_block s r) as [s1 [|]]; cbn [fst] in *; try exact Ht;
    destruct aborted; cbn [fst]; try exact Ht.
  - apply tracked_set_heap, tracked_log; [discriminate | exact Ht].
  - set (s3 := set_heap _ (log (EvDelay (retryDelay c)) s1)).
    assert (H3 : tracked E c0 l0 s3).
    { apply tracked_set_heap, tracked_log; [discriminate | exact Ht]. }
    set (s4 := log _ s3).
    assert (H4 : tracked E c0 l0 s4).
    { apply tracked_log; [discriminate | exact H3]. }
    clearbody s4.
    destruct (outcome a) as [|r']; cbn [fst]; [exact H4|].
    destruct (Z.eqb (status r') 206); cbn [fst].
    + apply IH, H4.
    + apply tracked_refuse, H4.
Qed.

End Counters.

Lemma tracked_session (h : gmap loc RequestInit) (l : loc) (d : Z)
    (first : attempt) (env : list attempt) (r : Response)
    (cr : option ContentRange) (c0 l0 : Z) :
  outcome first = Responds r ->
  accepted (status r) = true ->
  contentRange r = inr cr ->
  initial_currentSize cr = Int c0 ->
  initial_bytesLeft r cr = Int l0 ->
  0 <= c0 -> 0 <= l0 -> c0 + l0 <= 2 ^ 53 ->
  let run := download h l d first env in
  let D := len (delivered (events run)) in
  counters run = Some (Int (c0 + D), Int (l0 - D))
  /\ budget_kept (c0 + l0) c0 l0 (events run)
  /\ D <= l0.
Proof.
  intros Hout Hacc Hcr Hc Hl Hc0 Hl0 Hsafe run. subst run. unfold download.
  rewrite Hout, Hacc, Hcr. cbn [negb].
  set (s0 := {| currentSize := initial_currentSize cr;
                bytesLeft := initial_bytesLeft r cr;
                heap := _; channel := Writable; storedError := None;
                trace := _ |}).
  set (c := {| init := l; retryDelay := d; etag := _; requested := _ |}).
  assert (H0 : tracked (c0 + l0) c0 l0 s0).
  { unfold tracked. cbn. unfold len. cbn.
    rewrite Z.add_0_r, Z.sub_0_r. repeat split; try assumption. lia. }
  pose proof (tracked_loop (c0 + l0) c0 l0 eq_refl Hc0 Hl0 Hsafe c env s0 r
                (signal_aborted first) H0) as Hfin.
  destruct (loop c s0 r (signal_aborted first) env) as [[s e] rest].
  cbn [fst] in Hfin. destruct Hfin as (H1 & H2 & H3 & H4). cbn.
  rewrite H1, H2. auto.
Qed.

(** C9, as amended.  In a session whose first response is accepted and
    gives the counters [currentSize = c0] and [bytesLeft = l0], integers
    with [0 <= c0], [0 <= l0] and [c0 + l0 <= 2^53]: every chunk handed
    to the output channel, throughout the session and across its
    retries, raises [currentSize] and lowers [bytesLeft] by the chunk's
    length, so that their sum stays [c0 + l0]; each chunk is cut to the
    budget that is left, so the budget never becomes negative; the final
    counters have the same sum; and when the counters came from a
    [Content-Range] header whose end is the integer [e], that sum is
    [e]. *)
Theorem C9_counter_sum_is_invariant
    (h : gmap loc RequestInit) (l : loc) (d : Z) (first : attempt)
    (env : list attempt) (r : Response) (cr : option ContentRange)
    (c0 l0 : Z) :
  outcome first = Responds r ->
  accepted (status r) = true ->
  contentRange r = inr cr ->
  initial_currentSize cr = Int c0 ->
  initial_bytesLeft r cr = Int l0 ->
  0 <= c0 -> 0 <= l0 -> c0 + l0 <= 2 ^ 53 ->
  let run := download h l d first env in
  budget_kept (c0 + l0) c0 l0 (events run)
  /\ (exists c' l',
        counters run = Some (Int c', Int l')
        /\ c' + l' = c0 + l0
        /\ 0 <= l')
  /\ (forall x e, cr = Some x -> cr_end x = Int e -> 0 <= e <= 2 ^ 53 ->
        c0 + l0 = e)
  /\ (forall (s : session) (chunk : list Byte.byte) (b : Z),
        bytesLeft s = Int b -> 0 <= b <= 2 ^ 53 ->
        exists size budget,
          trace (transform s chunk)
          = (trace s
             ++ [EvEnqueue (take (Z.to_nat (Z.min b (len chunk))) chunk)
                   size budget])%list).
Proof.
  intros Hout Hacc Hcr Hc Hl Hc0 Hl0 Hsafe run.
  destruct (tracked_session h l d first env r cr c0 l0 Hout Hacc Hcr Hc Hl
              Hc0 Hl0 Hsafe) as (Hcnt & Hkept & Hneg).
  fold run in Hcnt, Hkept, Hneg.
  split; [exact Hkept|]. split.
  { do 2 eexists. split; [exact Hcnt|]. split; lia. }
  split.
  { intros x e -> He Hb. cbn in Hc, Hl. rewrite Hc, He in Hl.
    rewrite sub_Int in Hl by lia.
    apply Int_inj in Hl; lia. }
  intros s' chunk b. apply transform_truncates.
Qed.

Lemma C9_counter_sum_witness :
  let run := download (heap_with (Some [("range", "bytes=100-199")])) here 5000
               (plays interrupted) [plays resumed] in
  budget_kept 199 100 99 (events run)
  /\ (exists c' l',
        counters run = Some (Int c', Int l')
        /\ c' + l' = 199
        /\ 0 <= l').
Proof.
  pose proof (C9_counter_sum_is_invariant
                (heap_with (Some [("range", "bytes=100-199")])) here 5000
                (plays interrupted) [plays resumed] interrupted
                (Some {| cr_start := Int 100; cr_end := Int 199; cr_total := NaN |})
                100 99 eq_refl eq_refl eq_refl eq_refl eq_refl
                ltac:(lia) ltac:(lia) ltac:(lia)) as H.
  cbv zeta in H. destruct H as (H1 & H2 & _).
  split; [exact H1 | exact H2].
Defined.

(** C9 as the claim states it fails twice.  With a [Content-Range]
    that ends before it starts the budget is negative from the start:
    [subarray(0, -5)] still forwards twenty-five of thirty bytes, and
    the budget falls to [-30].  From [2^53] on, [currentSize] no longer
    moves by the length of a chunk: one byte added to [2^53] leaves
    [2^53], and the sum of the counters drifts from the declared end. *)
Lemma C9_counterexample :
  (let run := download (heap_with None) here 5000 (plays backwards) [] in
   events run = [EvFetch (Some []); EvEnqueue (bytes 25) (Int 35) (Int (-30));
                 EvClose]
   /\ counters run = Some (Int 35, Int (-30)))
  /\ (let run := download (heap_with None) here 5000 (plays beyond_safe) [] in
      events run
      = [EvFetch (Some []);
         EvEnqueue (bytes 1) (Int 9007199254740992) (Int 7);
         EvEnqueue (bytes 1) (Int 9007199254740992) (Int 6);
         EvClose]
      /\ counters run = Some (Int 9007199254740992, Int 6)).
Proof. vm_compute. repeat split; reflexivity. Qed.

(** C1.  A first response [206] with [Content-Range: bytes 0-9/10] and a
    ten-byte body that ends cleanly: the budget starts at [9 - 0 = 9]
    (line 98), the chunk is cut to nine bytes, the channel is closed, and
    the byte at offset 9 never reaches it. *)
Theorem C1_last_byte_of_range_dropped :
  let r := download (heap_with None) here 5000 (plays whole_range) [] in
  promise r = Resolved (headers whole_range)
  /\ delivered (events r) = take 9 resource10
  /\ delivered (events r) <> resource10
  /\ final_channel r = Closed
  /\ background r = Returned
  /\ counters r = Some (Int 9, Int 0).
Proof. vm_compute. repeat split; try reflexivity. discriminate. Qed.

(** X18.  Lines 98 and 107, for every session: when the first response
    declares the range [s .. e] (both ends included, [e - s + 1] bytes,
    with [0 <= s <= e <= 2^53]), no more than [e - s] bytes ever reach
    the output channel, whatever the bodies and the retries. *)
Lemma delivered_short_of_declared_range
    (h : gmap loc RequestInit) (l : loc) (d : Z) (first : attempt)
    (env : list attempt) (r : Response) (x : ContentRange) (s e : Z) :
  outcome first = Responds r ->
  accepted (status r) = true ->
  contentRange r = inr (Some x) ->
  cr_start x = Int s -> cr_end x = Int e ->
  0 <= s -> s <= e -> e <= 2 ^ 53 ->
  len (delivered (events (download h l d first env))) < e - s + 1.
Proof.
  intros Hout Hacc Hcr Hs He H0 Hle Hb.
  assert (Hl : initial_bytesLeft r (Some x) = Int (e - s)).
  { cbn. rewrite Hs, He. apply sub_Int; lia. }
  destruct (tracked_session h l d first env r (Some x) s (e - s)
              Hout Hacc Hcr Hs Hl H0 ltac:(lia) ltac:(lia)) as (_ & _ & Hneg).
  cbv zeta in Hneg. lia.
Qed.

(** ** The retry loop *)

Lemma requests_app (t1 t2 : list event) :
  requests (t1 ++ t2) = (requests t1 ++ requests t2)%list.
Proof.
  induction t1 as [|e t1 IH]; [reflexivity|].
  destruct e; cbn; now rewrite IH.
Qed.

Lemma fold_transform_channel (cs : list (list Byte.byte)) (s : session) :
  channel (fold_left transform cs s) = channel s.
Proof.
  revert s. induction cs as [|c cs IH]; intros s; [reflexivity|].
  cbn [fold_left]. now rewrite IH.
Qed.

(** The pump and [close] issue no request. *)
Lemma fold_transform_requests (cs : list (list Byte.byte)) (s : session) :
  requests (trace (fold_left transform cs s)) = requests (trace s).
Proof.
  revert s. induction cs as [|c cs IH]; intros s; [reflexivity|].
  cbn [fold_left]. rewrite IH. unfold transform. cbn [trace].
  rewrite requests_app. cbn. apply app_nil_r.
Qed.

Lemma try_block_requests (s : session) (r : Response) :
  requests (trace (fst (try_block s r))) = requests (trace s).
Proof.
  unfold try_block, pipe.
  destruct (body r) as [b|].
  - destruct (channel s) eqn:Hch; cbn [fst]; try reflexivity.
    + pose proof (fold_transform_requests (chunks b) s) as Hf.
      pose proof (fold_transform_channel (chunks b) s) as Hc.
      rewrite Hch in Hc.
      destruct (ending b); cbn [fst].
      * rewrite Hc. cbn. rewrite requests_app, Hf. cbn. apply app_nil_r.
      * cbn. rewrite requests_app, Hf. cbn. apply app_nil_r.
      * cbn. exact Hf.
  - destruct (channel s); cbn; try reflexivity;
      rewrite requests_app; cbn; apply app_nil_r.
Qed.

(** Without [preventAbort], a [try] block that throws leaves the channel
    errored. *)
Lemma try_block_throws_errored (s s1 : session) (r : Response) :
  channel s <> Closed ->
  try_block s r = (s1, Throws) -> channel s1 = Errored.
Proof.
  intros Hc. unfold try_block, pipe.
  destruct (body r) as [b|].
  - destruct (channel s) eqn:Hs; try contradiction.
    + pose proof (fold_transform_channel (chunks b) s) as Hw.
      rewrite Hs in Hw.
      destruct (ending b).
      * rewrite Hw. intros [= <-].
      * intros [= <-]. reflexivity.
      * intros [= <-]. reflexivity.
    + intros [= <-]. exact Hs.
  - destruct (channel s) eqn:Hs; try contradiction.
    + intros [=].
    + intros [= <-]. exact Hs.
Qed.

Lemma refuse_trace (r : Response) (s : session) :
  trace (abort (status_message r) (cancel_body r s))
  = (trace s ++ cancel_events r ++ [EvAbort (status_message r)])%list.
Proof.
  unfold abort, cancel_body, cancel_events.
  destruct (body r); cbn; destruct (channel s); cbn;
    rewrite <- ?app_assoc; reflexivity.
Qed.

Lemma refuse_channel (m : string) (r : Response) (s : session) :
  channel s = Errored -> channel (abort m (cancel_body r s)) = Errored.
Proof.
  intros Hs. unfold abort, cancel_body.
  destruct (body r); cbn; rewrite Hs; exact Hs.
Qed.

Ltac no_attempt_used := intros [|? ?] ? ? Hu; discriminate Hu.

(** What a run of the loop uses of the environment: the attempts it used
    are a prefix of those offered; each issued one request; all but the
    last answered 206; and when the last one answered with another status,
    the loop returned right after [writable.abort] with the message of
    line 129, the channel being errored. *)
Lemma loop_uses (c : context) (env : list attempt) :
  forall (s : session) (r : Response) (aborted : bool),
  channel s <> Closed ->
  exists used,
    let '(s', e, rest) := loop c s r aborted env in
    env = (used ++ rest)%list
    /\ length (requests (trace s'))
       = (length (requests (trace s)) + length used)%nat
    /\ (forall u1 x u2, used = (u1 ++ x :: u2)%list -> u2 <> [] ->
          exists r', outcome x = Responds r' /\ status r' = 206)
    /\ (forall u1 x r', used = (u1 ++ [x])%list ->
          outcome x = Responds r' -> status r' <> 206 ->
          e = Returned
          /\ channel s' = Errored
          /\ exists t, trace s'
               = (t ++ cancel_events r' ++ [EvAbort (status_message r')])%list).
Proof.
  induction env as [|a env IH]; intros s r aborted Hch; cbn [loop];
    pose proof (try_block_requests s r) as Hq;
    pose proof (try_block_throws_errored s (fst (try_block s r)) r Hch) as He;
    destruct (try_block s r) as [s1 [|]]; cbn [fst] in Hq, He.
  1,2,3: exists []; destruct aborted; cbn;
    rewrite ?requests_app, ?Hq; cbn; rewrite ?app_nil_r;
    (split; [reflexivity|]; split; [lia|]; split; no_attempt_used).
  specialize (He eq_refl).
  destruct aborted.
  { exists []. cbn. rewrite Hq.
    split; [reflexivity|]; split; [lia|]; split; no_attempt_used. }
  set (s2 := log (EvDelay (retryDelay c)) s1).
  set (s3 := set_heap _ s2).
  set (s4 := log _ s3).
  assert (Hr4 : length (requests (trace s4)) = S (length (requests (trace s)))).
  { subst s4 s3 s2. cbn. rewrite !requests_app. cbn.
    rewrite app_nil_r, Hq, List.length_app. cbn. apply Nat.add_1_r. }
  assert (Hc4 : channel s4 = Errored) by exact He.
  clearbody s4. clear s3 s2.
  destruct (outcome a) as [|r'] eqn:Hout.
  - exists [a]. cbn. split; [reflexivity|]. split; [rewrite Hr4; lia|]. split.
    + intros [|? [|? ?]] x u2 Hu Hne; try discriminate Hu.
      injection Hu as _ <-. now destruct Hne.
    + intros [|? [|? ?]] x r'' Hu Hx; try discriminate Hu.
      injection Hu as <-. congruence.
  - destruct (Z.eqb_spec (status r') 206) as [H206|H206].
    + destruct (IH s4 r' (signal_aborted a)) as [used Hused];
        [rewrite Hc4; discriminate|].
      exists (a :: used).
      destruct (loop c s4 r' (signal_aborted a) env) as [[s' e] rest].
      destruct Hused as (Heq & Hn & Hmid & Hlast).
      split; [cbn; now rewrite Heq|].
      split; [rewrite Hn, Hr4; cbn; lia|].
      split.
      * intros [|y u1] x u2 Hu Hne; injection Hu as <- Hu.
        -- exists r'. split; assumption.
        -- eapply Hmid; eassumption.
      * intros [|y u1] x r'' Hu Hx Hs; injection Hu as Ha Hu.
        -- subst x. congruence.
        -- subst y. eapply Hlast; eassumption.
    + exists [a]. rewrite refuse_trace. split; [reflexivity|]. split; [|split].
      * rewrite !requests_app, !List.length_app, Hr4.
        unfold cancel_events. destruct (body r'); cbn; lia.
      * intros [|? [|? ?]] x u2 Hu Hne; try discriminate Hu.
        injection Hu as _ <-. now destruct Hne.
      * intros [|? [|? ?]] x r'' Hu Hx Hs; try discriminate Hu.
        injection Hu as <-. rewrite Hout in Hx. injection Hx as <-.
        split; [reflexivity|]. split; [now apply refuse_channel|].
        eexists. reflexivity.
Qed.

Lemma used_covers {A : Type} (used rest pre post : list A) (a : A) :
  (used ++ rest = pre ++ a :: post)%list ->
  (length pre < length used)%nat ->
  exists u2, used = (pre ++ a :: u2)%list /\ post = (u2 ++ rest)%list.
Proof.
  revert used. induction pre as [|p pre IH]; intros [|u used] H Hlen;
    cbn in *; try lia.
  - injection H as -> H. exists used. now split.
  - injection H as -> H. destruct (IH used H) as (u2 & -> & ->); [lia|].
    exists u2. now split.
Qed.

Lemma fold_transform_error (cs : list (list Byte.byte)) (s : session) :
  storedError (fold_left transform cs s) = storedError s.
Proof.
  revert s. induction cs as [|c cs IH]; intros s; [reflexivity|].
  cbn [fold_left]. now rewrite IH.
Qed.

Lemma try_block_pump_error (s : session) (r : Response) :
  pump_error s -> pump_error (fst (try_block s r)).
Proof.
  intros Hs. unfold try_block, pipe.
  destruct (body r) as [b|].
  - destruct (channel s) eqn:Hch; cbn [fst].
    + pose proof (fold_transform_channel (chunks b) s) as Hc.
      rewrite Hch in Hc.
      destruct (ending b); cbn [fst].
      * rewrite Hc. cbn. intros H. discriminate H.
      * intros _. now left.
      * intros _. now right.
    + intros H. cbn in H. congruence.
    + exact Hs.
  - destruct (channel s) eqn:Hch; cbn [fst].
    + intros H. discriminate H.
    + intros H. cbn in H. congruence.
    + exact Hs.
Qed.

Lemma refuse_pump_error (m : string) (r : Response) (s : session) :
  channel s = Errored -> pump_error s -> pump_error (abort m (cancel_body r s)).
Proof.
  intros Hch Hs _. specialize (Hs Hch). unfold abort, cancel_body.
  destruct (body r); cbn; rewrite Hch; exact Hs.
Qed.

(** The calls of [writable.abort] the loop makes come after a failed
    pump, on a channel that is errored already: what the channel stores
    stays what the pump left there. *)
Lemma loop_keeps_pump_error (c : context) (env : list attempt) :
  forall (s : session) (r : Response) (aborted : bool),
    channel s <> Closed -> pump_error s ->
    pump_error (fst (fst (loop c s r aborted env))).
Proof.
  induction env as [|a env IH]; intros s r aborted Hch Hs; cbn [loop];
    pose proof (try_block_pump_error s r Hs) as Hp;
    pose proof (try_block_throws_errored s (fst (try_block s r)) r Hch) as He;
    destruct (try_block s r) as [s1 [|]]; cbn [fst] in *; try exact Hp;
    destruct aborted; cbn [fst]; try exact Hp.
  specialize (He eq_refl).
  destruct (outcome a) as [|r']; cbn [fst]; [exact Hp|].
  destruct (Z.eqb (status r') 206); cbn [fst].
  - apply IH; [|exact Hp]. change (channel s1 <> Closed). rewrite He. discriminate.
  - apply refuse_pump_error; [exact He | exact Hp].
Qed.

(** X20.  Lines 126-131, whatever the session: when the retry played
    by attempt [a] (the one after [pre]) is issued and answers with a
    status other than 206, the loop cancels that response's body, calls
    [writable.abort] with [Status Code (<status>) wasn't 206] and
    returns; that request is the session's last, and the attempts after
    it stay unused.  The call changes nothing: the channel is errored
    already and keeps the error the failed pump left there. *)
Theorem retry_not_206_stops_the_loop
    (h : gmap loc RequestInit) (l : loc) (d : Z) (first : attempt)
    (pre post : list attempt) (a : attempt) (r' : Response) :
  outcome a = Responds r' ->
  status r' <> 206 ->
  let run := download h l d first (pre ++ a :: post) in
  (length pre + 2 <= length (requests (events run)))%nat ->
  length (requests (events run)) = (length pre + 2)%nat
  /\ unused run = post
  /\ background run = Returned
  /\ final_channel run = Errored
  /\ (final_error run = Some BodyError \/ final_error run = Some ConsumerReason)
  /\ exists t,
       events run
       = (t ++ cancel_events r'
            ++ [EvAbort ("Status Code (" +:+ Z_to_string (status r')
                           +:+ ") wasn't 206")])%list.
Proof.
  intros Hout Hst run. subst run. unfold download.
  destruct (outcome first) as [|r]; [cbn; lia|].
  destruct (accepted (status r)); cbn [negb].
  2: { unfold abort, cancel_body. destruct (body r); cbn; lia. }
  destruct (contentRange r) as [m|cr]; [cbn; lia|].
  set (s0 := {| currentSize := _; bytesLeft := _; heap := _;
                channel := Writable; storedError := None;
                trace := _ |}).
  set (c := {| init := l; retryDelay := d; etag := _; requested := _ |}).
  destruct (loop_uses c (pre ++ a :: post) s0 r (signal_aborted first))
    as [used Hused]; [discriminate|].
  pose proof (loop_keeps_pump_error c (pre ++ a :: post) s0 r
                (signal_aborted first) ltac:(discriminate)
                ltac:(intros H; discriminate H)) as Hpump.
  destruct (loop c s0 r (signal_aborted first) (pre ++ a :: post))
    as [[s' e] rest].
  destruct Hused as (He & Hn & Hmid & Hlast). cbn [fst] in Hpump. cbn.
  rewrite Hn. subst s0. cbn. intros Hreq.
  destruct (used_covers used rest pre post a (eq_sym He)) as (u2 & Hu & Hp);
    [lia|].
  destruct u2 as [|x u2].
  - cbn in Hp. subst post.
    destruct (Hlast pre a r' Hu Hout Hst) as (-> & Hch & t & Ht).
    rewrite Hu, List.length_app. cbn.
    split; [lia|]. split; [reflexivity|]. split; [reflexivity|].
    split; [exact Hch|]. split; [exact (Hpump Hch)|]. exists t. exact Ht.
  - destruct (Hmid pre a (x :: u2) Hu) as (r2 & Hr2 & H206); [discriminate|].
    rewrite Hout in Hr2. injection Hr2 as <-. contradiction.
Qed.

Lemma retry_not_206_witness :
  let run := download (heap_with None) here 5000
               (plays interrupted) ([] ++ plays not_found :: [plays resumed]) in
  length (requests (events run)) = 2%nat
  /\ unused run = [plays resumed]
  /\ background run = Returned
  /\ final_channel run = Errored
  /\ (final_error run = Some BodyError \/ final_error run = Some ConsumerReason)
  /\ exists t,
       events run
       = (t ++ [EvCancelBody] ++ [EvAbort "Status Code (404) wasn't 206"])%list.
Proof.
  exact (retry_not_206_stops_the_loop
           (heap_with None) here 5000 (plays interrupted)
           [] [plays resumed] (plays not_found) not_found
           eq_refl ltac:(discriminate) ltac:(vm_compute; lia)).
Defined.

(** C5.  The first body errors after thirty bytes, the retry is
    answered with [404]: the loop calls [writable.abort] with
    [Status Code (404) wasn't 206] and returns, and no further request
    is made; but [pipeTo], called without [preventAbort], has aborted
    the channel with the body's error before, so the call finds the
    channel errored and changes nothing: what the channel stores, and
    what its reader is given, is the body's error and not the message
    that names the status.  On a channel that is still writable the
    same call does store its message. *)
Theorem C5_status_message_never_reaches_the_channel :
  let run := download (heap_with None) here 5000
               (plays interrupted) [plays not_found; plays resumed] in
  events run
  = [EvFetch (Some []);
     EvEnqueue (bytes 30) (Int 130) (Int 69);
     EvPipeAbort;
     EvDelay 5000;
     EvFetch (Some [("range", "bytes=130-"); ("if-match", "v1")]);
     EvCancelBody;
     EvAbort "Status Code (404) wasn't 206"]
  /\ background run = Returned
  /\ unused run = [plays resumed]
  /\ final_channel run = Errored
  /\ final_error run = Some BodyError
  /\ final_error run <> Some (Message "Status Code (404) wasn't 206")
  /\ (forall m s, channel s = Errored ->
        storedError (abort m s) = storedError s)
  /\ (forall m s, channel s = Writable ->
        channel (abort m s) = Errored
        /\ storedError (abort m s) = Some (Message m)).
Proof.
  split; [vm_compute; reflexivity|]. split; [reflexivity|].
  split; [reflexivity|]. split; [reflexivity|]. split; [reflexivity|].
  split; [vm_compute; discriminate|].
  split; intros m s Hs; unfold abort; rewrite Hs; [reflexivity | now split].
Qed.

(** ** Cancellation, and what a failed pump leaves behind *)

(** C6.  The body errors while the caller's signal is aborted.  The loop
    returns without a close, an abort or a retry of its own, but the
    channel has received an abort all the same: [pipeTo] was called
    without [preventAbort], so it aborted [writable] with the body's error
    before its promise rejected. *)
Theorem C6_pipe_aborts_channel_on_cancelled_session :
  let r := download (heap_with None) here 5000
             (plays_aborted interrupted) [plays resumed] in
  events r = [EvFetch (Some []); EvEnqueue (bytes 30) (Int 130) (Int 69);
              EvPipeAbort]
  /\ final_channel r = Errored
  /\ background r = Returned
  /\ unused r = [plays resumed].
Proof. vm_compute. repeat split; reflexivity. Qed.

(** Lines 117-119 by themselves: when the [try] block throws while the
    signal is aborted, the loop returns with nothing done after the
    throw. *)
Lemma cancelled_loop_does_nothing_more (c : context) (s s1 : session)
    (r : Response) (env : list attempt) :
  try_block s r = (s1, Throws) ->
  loop c s r true env = (s1, Returned, env).
Proof. intros H. destruct env; cbn [loop]; now rewrite H. Qed.

(** When it is the consumer who cancelled the readable side, nothing
    aborts or closes the channel. *)
Lemma consumer_cancel_is_silent :
  let r := download (heap_with None) here 5000
             (plays_aborted consumer_gone) [plays resumed] in
  events r = [EvFetch (Some []); EvEnqueue (bytes 30) (Int 130) (Int 69)]
  /\ background r = Returned
  /\ unused r = [plays resumed].
Proof. vm_compute. repeat split; reflexivity. Qed.

Lemma delivered_log (e : event) (s : session) :
  (forall ch a b, e <> EvEnqueue ch a b) ->
  delivered (trace (log e s)) = delivered (trace s).
Proof.
  intros He. cbn. rewrite delivered_app.
  destruct e; cbn; try apply app_nil_r. now destruct (He chunk size budget).
Qed.

Lemma refuse_delivered (m : string) (r : Response) (s : session) :
  delivered (trace (abort m (cancel_body r s))) = delivered (trace s).
Proof.
  unfold abort, cancel_body.
  destruct (body r); cbn; destruct (channel s); cbn;
    rewrite ?delivered_app; cbn; rewrite ?app_nil_r; reflexivity.
Qed.

Ltac quiet_steps :=
  repeat first
    [ rewrite delivered_log by discriminate
    | rewrite refuse_delivered
    | match goal with
      | |- context [trace (set_heap ?h ?s)] =>
          change (trace (set_heap h s)) with (trace s)
      end ].

Lemma errored_try_block (s : session) (r : Response) :
  channel s = Errored ->
  exists s1, try_block s r = (s1, Throws)
             /\ channel s1 = Errored
             /\ delivered (trace s1) = delivered (trace s).
Proof.
  intros Hs. unfold try_block, pipe.
  destruct (body r); cbn; rewrite Hs.
  - exists s. auto.
  - exists (log EvClose s). split; [reflexivity|]. split; [exact Hs|].
    now rewrite delivered_log by discriminate.
Qed.

(** Once the channel is errored, no later attempt delivers a byte: every
    pump is refused at once. *)
Lemma errored_loop_delivers_nothing (c : context) (env : list attempt) :
  forall (s : session) (r : Response) (aborted : bool),
    channel s = Errored ->
    delivered (trace (fst (fst (loop c s r aborted env)))) = delivered (trace s).
Proof.
  induction env as [|a env IH]; intros s r aborted Hs; cbn [loop];
    destruct (errored_try_block s r Hs) as (s1 & -> & Hc & Hd);
    destruct aborted; cbn [fst]; try exact Hd.
  - quiet_steps. exact Hd.
  - destruct (outcome a) as [|r']; cbn [fst]; [quiet_steps; exact Hd|].
    destruct (Z.eqb (status r') 206); cbn [fst].
    + rewrite IH by exact Hc. quiet_steps. exact Hd.
    + quiet_steps. exact Hd.
Qed.

(** X19.  Lines 102-131: what a session delivers does not depend on its
    retries; it is what the first response's body delivered before it
    failed. *)
Lemma retries_deliver_nothing
    (h : gmap loc RequestInit) (l : loc) (d : Z) (first : attempt)
    (env : list attempt) :
  delivered (events (download h l d first env))
  = delivered (events (download h l d first [])).
Proof.
  unfold download.
  destruct (outcome first) as [|r]; [reflexivity|].
  destruct (accepted (status r)); cbn [negb]; [|reflexivity].
  destruct (contentRange r) as [m|cr]; [reflexivity|].
  set (s0 := {| currentSize := _; bytesLeft := _; heap := _;
                channel := Writable; storedError := None;
                trace := _ |}).
  set (c := {| init := l; retryDelay := d; etag := _; requested := _ |}).
  assert (H : delivered (trace (fst (fst (loop c s0 r (signal_aborted first) env))))
              = delivered (trace (fst (fst (loop c s0 r (signal_aborted first) []))))).
  { destruct env as [|a env]; [reflexivity|]. cbn [loop].
    pose proof (try_block_throws_errored s0 (fst (try_block s0 r)) r) as He.
    destruct (try_block s0 r) as [s1 [|]]; cbn [fst] in *; [reflexivity|].
    specialize (He ltac:(discriminate) eq_refl).
    destruct (signal_aborted first); cbn [fst]; [reflexivity|].
    destruct (outcome a) as [|r']; cbn [fst]; [quiet_steps; reflexivity|].
    destruct (Z.eqb (status r') 206); cbn [fst].
    - rewrite errored_loop_delivers_nothing by exact He.
      quiet_steps. reflexivity.
    - quiet_steps. reflexivity. }
  destruct (loop c s0 r (signal_aborted first) env) as [[s e] rest].
  destruct (loop c s0 r (signal_aborted first) []) as [[s' e'] rest'].
  exact H.
Qed.

(** ** The headers of a retry *)

(** C2.  The caller asks for [Range: bytes=100-] (open-ended), the first
    response is [bytes 100-199/200] and fails after thirty bytes: the
    retry is sent with [Range: bytes=130-0], not [bytes=130-].  The empty
    end was read as [0] on line 70, and [0 ?? ""] is [0]. *)
Theorem C2_open_ended_request_retries_with_end_zero :
  let r := download (heap_with (Some [("range", "bytes=100-")])) here 5000
             (plays interrupted) [plays resumed] in
  requests (events r)
    = [Some [("range", "bytes=100-")];
       Some [("range", "bytes=130-0"); ("if-match", "v1")]]
  /\ map sent_range (requests (events r))
    = [Some "bytes=100-"; Some "bytes=130-0"].
Proof. vm_compute. split; reflexivity. Qed.

(** With an end in the caller's [range] entry the retries are as the
    examples of the specification say: after [bytes 100-199/200] and
    thirty bytes the retry asks for [bytes=130-199], and the end stays
    [199] in every later retry. *)
Lemma bounded_request_keeps_its_end :
  let r := download (heap_with (Some [("range", "bytes=100-199")])) here 5000
             (plays interrupted) [plays resumed; plays resumed; plays resumed] in
  map sent_range (requests (events r))
  = [Some "bytes=100-199"; Some "bytes=130-199"; Some "bytes=130-199";
     Some "bytes=130-199"].
Proof. vm_compute. reflexivity. Qed.

(** The spread of lines 121-125 compares keys exactly while [Headers]
    does not: a caller's [Range] entry survives next to the new [range]
    entry, and the retry carries both ranges. *)
Lemma capitalized_Range_is_sent_twice :
  let r := download (heap_with (Some [("Range", "bytes=100-199")])) here 5000
             (plays interrupted) [plays resumed] in
  requests (events r)
    = [Some [("Range", "bytes=100-199")];
       Some [("Range", "bytes=100-199"); ("range", "bytes=130-199");
             ("if-match", "v1")]]
  /\ map sent_range (requests (events r))
    = [Some "bytes=100-199"; Some "bytes=100-199, bytes=130-199"].
Proof. vm_compute. split; reflexivity. Qed.

(** ** The caller's [init] object *)

Lemma prop_set_prop_eq (k v : string) (o : object) :
  prop (set_prop k v o) k = Some v.
Proof.
  induction o as [|[k' v'] o IH]; cbn.
  - now rewrite String.eqb_refl.
  - destruct (String.eqb k' k) eqn:Hk; cbn; now rewrite Hk.
Qed.

Lemma prop_set_prop_ne (k k0 v : string) (o : object) :
  k0 <> k -> prop (set_prop k v o) k0 = prop o k0.
Proof.
  intros Hne. induction o as [|[k' v'] o IH]; cbn.
  - destruct (String.eqb_spec k k0); [congruence | reflexivity].
  - destruct (String.eqb_spec k' k) as [->|Hk]; cbn.
    + destruct (String.eqb_spec k k0); [congruence | reflexivity].
    + now rewrite IH.
Qed.

(** A rebuilt object holds the new [range] and [if-match] entries and
    every other entry of the object it was built from. *)
Lemma retry_headers_props (o : object) (size : number)
    (rg : option Range) (etag : option string) :
  let o' := retry_headers (Some o) size rg etag in
  prop o' "range" = Some (retry_range size rg)
  /\ prop o' "if-match" = Some (default "" etag)
  /\ forall k, k <> "range" -> k <> "if-match" -> prop o' k = prop o k.
Proof.
  unfold retry_headers. cbn [default]. repeat split.
  - rewrite prop_set_prop_ne by discriminate. apply prop_set_prop_eq.
  - apply prop_set_prop_eq.
  - intros k H1 H2. now rewrite !prop_set_prop_ne.
Qed.

Lemma last_cons_default {A : Type} (x : A) (l : list A) (d d' : A) :
  List.last (x :: l) d = List.last (x :: l) d'.
Proof.
  revert x. induction l as [|y l IH]; intros x; [reflexivity|].
  cbn [List.last]. apply IH.
Qed.




Section Init.

Variable h : gmap loc RequestInit.
Variable l : loc.
Variable i : RequestInit.
Hypothesis caller : h !! l = Some i.

Lemma write_headers_first (o : object) :
  write_headers l o h = <[l := with_headers i o]> h.
Proof.
  unfold write_headers. apply map_eq. intros j.
  rewrite lookup_alter, lookup_insert.
  destruct (decide (l = j)) as [<-|]; [now rewrite caller | reflexivity].
Qed.

Lemma write_headers_again (o o' : object) :
  write_headers l o' (<[l := with_headers i o]> h)
  = <[l := with_headers i o']> h.
Proof. unfold write_headers. now rewrite alter_insert_eq. Qed.

Lemma read_headers_written (o : object) :
  read_headers (<[l := with_headers i o]> h) l = Some o.
Proof. unfold read_headers. now rewrite lookup_insert_eq. Qed.

Lemma fold_transform_heap (cs : list (list Byte.byte)) (s : session) :
  heap (fold_left transform cs s) = heap s.
Proof.
  revert s. induction cs as [|c cs IH]; intros s; [reflexivity|].
  cbn [fold_left]. now rewrite IH.
Qed.

Lemma try_block_heap (s : session) (r : Response) :
  heap (fst (try_block s r)) = heap s.
Proof.
  unfold try_block, pipe.
  destruct (body r) as [b|].
  - destruct (channel s); cbn [fst]; try reflexivity.
    pose proof (fold_transform_heap (chunks b) s) as Hf.
    destruct (ending b); cbn [fst]; try exact Hf.
    destruct (channel (fold_left transform (chunks b) s)); exact Hf.
  - destruct (channel s); reflexivity.
Qed.

Lemma refuse_heap (m : string) (r : Response) (s : session) :
  heap (abort m (cancel_body r s)) = heap s.
Proof.
  unfold abort, cancel_body.
  destruct (body r); cbn; destruct (channel s); reflexivity.
Qed.

Lemma refuse_requests (m : string) (r : Response) (s : session) :
  requests (trace (abort m (cancel_body r s))) = requests (trace s).
Proof.
  unfold abort, cancel_body.
  destruct (body r); cbn; destruct (channel s); cbn;
    rewrite ?requests_app; cbn; rewrite ?app_nil_r; reflexivity.
Qed.

(** The loop only ever writes [init.headers], each time with the object
    rebuilt from the one it finds there, and every retry is sent with
    the object just written. *)
Lemma loop_rebuilds (c : context) (env : list attempt) :
  init c = l ->
  forall (s : session) (r : Response) (aborted : bool) (o : object),
    heap s = <[l := with_headers i o]> h ->
    let '(s', _, _) := loop c s r aborted env in
    exists (qs : list object) (o' : object),
      requests (trace s') = (requests (trace s) ++ map Some qs)%list
      /\ rebuilds (requested c) (etag c) o qs
      /\ heap s' = <[l := with_headers i o']> h
      /\ (o' = List.last qs o
          \/ exists size,
               o' = retry_headers (Some (List.last qs o)) size
                      (requested c) (etag c)).
Proof.
  intros Hl.
  induction env as [|a env IH]; intros s r aborted o Hs; cbn [loop];
    pose proof (try_block_requests s r) as Hq;
    pose proof (try_block_heap s r) as Hh;
    destruct (try_block s r) as [s1 [|]]; cbn [fst] in Hq, Hh;
    rewrite Hs in Hh.
  1,3: exists [], o; cbn; rewrite Hq, app_nil_r; auto.
  - destruct aborted.
    + exists [], o; cbn; rewrite Hq, app_nil_r; auto.
    + exists [], (retry_headers (Some o) (currentSize s1) (requested c) (etag c)).
      cbn. rewrite requests_app, Hq, Hl, Hh, read_headers_written,
        write_headers_again. cbn. split; [now rewrite app_nil_r|].
      split; [exact I|]. split; [reflexivity|]. right. eexists. reflexivity.
  - destruct aborted.
    { exists [], o; cbn; rewrite Hq, app_nil_r; auto. }
    set (o1 := retry_headers (Some o) (currentSize s1) (requested c) (etag c)).
    set (s2 := log (EvDelay (retryDelay c)) s1).
    assert (H2 : heap s2 = <[l := with_headers i o]> h) by exact Hh.
    assert (Hc2 : currentSize s2 = currentSize s1) by reflexivity.
    rewrite Hl, H2, Hc2, read_headers_written. fold o1.
    set (s3 := set_heap _ s2).
    assert (H3 : heap s3 = <[l := with_headers i o1]> h).
    { subst s3. cbn. apply write_headers_again. }
    rewrite H3, read_headers_written.
    set (s4 := log _ s3).
    assert (H4 : heap s4 = <[l := with_headers i o1]> h) by exact H3.
    assert (Hr4 : requests (trace s4) = (requests (trace s) ++ [Some o1])%list).
    { subst s4 s3 s2. cbn. rewrite !requests_app, Hq. cbn.
      now rewrite app_nil_r. }
    clearbody s4. clear s3 H3 s2 H2 Hc2.
    assert (Hstep : exists size,
              o1 = retry_headers (Some o) size (requested c) (etag c))
      by (eexists; reflexivity).
    destruct (outcome a) as [|r'].
    + exists [o1], o1. cbn. rewrite Hr4. auto.
    + destruct (Z.eqb (status r') 206).
      * pose proof (IH s4 r' (signal_aborted a) o1 H4) as Hqs.
        destruct (loop c s4 r' (signal_aborted a) env) as [[s' e] rest].
        destruct Hqs as (qs & o' & Hreq & Hre & Hheap & Hlast).
        exists (o1 :: qs), o'.
        split; [rewrite Hreq, Hr4, <- app_assoc; reflexivity|].
        split; [split; assumption|].
        split; [assumption|].
        destruct qs as [|q qs]; [exact Hlast|].
        change (List.last (o1 :: q :: qs) o) with (List.last (q :: qs) o).
        now rewrite (last_cons_default q qs o o1).
      * exists [o1], o1. rewrite refuse_heap, refuse_requests, Hr4, H4.
        cbn. auto.
Qed.

End Init.




(** What the caller then reads through its own reference, on that
    session: the rebuilt headers, the other entries and fields as passed. *)
Lemma caller_sees_rebuilt_headers :
  let run := download (heap_with (Some [("accept", "*/*"); ("range", "bytes=100-199")]))
               here 5000 (plays interrupted) [plays not_found] in
  final_heap run !! here
  = Some {| init_headers := Some [("accept", "*/*"); ("range", "bytes=130-199");
                                  ("if-match", "v1")];
            init_method := Some "GET" |}.
Proof. vm_compute. reflexivity. Qed.

(** * Further properties of [download] *)

(** ** Printing and reading integers *)

Lemma uint_chars_are_digits (d : Decimal.uint) :
  Forall is_digit (list_ascii_of_string (NilEmpty.string_of_uint d)).
Proof.
  induction d; cbn; constructor; try assumption; unfold is_digit; cbn;
    discriminate.
Qed.

Lemma Z_to_string_nonneg_digits (n : Z) :
  0 <= n -> Forall is_digit (list_ascii_of_string (Z_to_string n)).
Proof.
  intros Hn. unfold Z_to_string. destruct n as [|p|p]; try lia.
  - cbn. constructor; [unfold is_digit; cbn; discriminate | constructor].
  - cbn [Z.to_int NilZero.string_of_int NilZero.string_of_uint].
    pose proof (uint_chars_are_digits (Pos.to_uint p)) as H.
    destruct (Pos.to_uint p); try exact H.
    cbn. constructor; [unfold is_digit; cbn; discriminate | constructor].
Qed.

Lemma digit_not_white (c : ascii) : is_digit c -> is_white c = false.
Proof.
  unfold is_digit, digit_of, is_white. intros H.
  destruct (Z.leb_spec 48 (Z.of_N (N_of_ascii c))); cbn in H; [|congruence].
  destruct (Z.leb_spec (Z.of_N (N_of_ascii c)) 57); cbn in H; [|congruence].
  destruct (N.leb_spec 9 (N_of_ascii c)); destruct (N.leb_spec (N_of_ascii c) 13);
    destruct (N.eqb_spec (N_of_ascii c) 32); destruct (N.eqb_spec (N_of_ascii c) 160);
    cbn; try reflexivity; lia.
Qed.

Lemma drop_white_id (l : list ascii) :
  Forall (fun c => is_white c = false) l -> drop_white l = l.
Proof. intros H. destruct H as [|c l Hc _]; cbn; [reflexivity | now rewrite Hc]. Qed.

Lemma trim_id (s : string) :
  Forall (fun c => is_white c = false) (list_ascii_of_string s) -> trim s = s.
Proof.
  intros H. unfold trim. rewrite (drop_white_id _ H).
  rewrite drop_white_id by (apply List.Forall_rev; exact H).
  rewrite List.rev_involutive. apply string_of_list_ascii_of_string.
Qed.

(** [digits] on a printed numeral, by the value [Pos.of_uint_acc] gives. *)
Lemma digits_acc (d : Decimal.uint) (acc : positive) :
  digits (Z.pos acc) (NilEmpty.string_of_uint d)
  = Some (Z.pos (Pos.of_uint_acc d acc)).
Proof.
  revert acc. induction d; intros acc; cbn [NilEmpty.string_of_uint digits];
    [reflexivity | ..];
    match goal with
    | |- context [digit_of ?c] =>
        change (digit_of c) with (Some (Z.of_N (N_of_ascii c) - 48))
    end; cbn [N_of_ascii]; cbn -[Z.mul Z.add digits Pos.of_uint_acc Pos.mul Pos.add];
    cbn [Pos.of_uint_acc]; rewrite <- IHd; f_equal; lia.
Qed.

Lemma digits_0 (d : Decimal.uint) :
  digits 0 (NilEmpty.string_of_uint d) = Some (Z.of_N (Pos.of_uint d)).
Proof.
  induction d; cbn [NilEmpty.string_of_uint digits Pos.of_uint];
    [reflexivity | exact IHd | ..];
    match goal with
    | |- context [digit_of ?c] =>
        change (digit_of c) with (Some (Z.of_N (N_of_ascii c) - 48))
    end; cbn [N_of_ascii]; cbn -[digits Pos.of_uint_acc];
    apply digits_acc.
Qed.

Lemma read_digits_all (s : string) :
  forall (acc n z : Z),
    digits acc s = Some z ->
    read_digits acc n s = (z, n + Z.of_nat (String.length s), "").
Proof.
  induction s as [|c s IH]; intros acc n z H; cbn in *.
  - injection H as ->. now rewrite Z.add_0_r.
  - destruct (digit_of c) as [d|]; [|discriminate].
    rewrite (IH _ (n + 1) z H). do 2 f_equal. lia.
Qed.

Lemma of_decimal_Int (neg : bool) (z : Z) :
  0 < z -> of_decimal neg z 0 = Int (cond_Zopp neg z).
Proof.
  intros Hz. unfold of_decimal.
  destruct (Z.eqb_spec z 0); [lia|].
  cbn [Z.leb Z.compare Z.pow]. now rewrite Z.mul_1_r.
Qed.

Lemma unsigned_of_digits (neg : bool) (s : string) (z : Z) :
  s <> "" -> Forall is_digit (list_ascii_of_string s) ->
  digits 0 s = Some z -> unsigned neg s = of_decimal neg z 0.
Proof.
  intros Hne Hd Hz. unfold unsigned.
  destruct s as [|c s]; [congruence|].
  assert (Hi : String.eqb (String c s) "Infinity" = false).
  { cbn. destruct (Ascii.eqb_spec c "I") as [->|]; [|reflexivity].
    inversion Hd as [|? ? Hc _]. now destruct Hc. }
  rewrite Hi. unfold decimal.
  rewrite (read_digits_all _ 0 0 z Hz). cbn [String.length exponent].
  destruct (Z.eqb_spec (0 + Z.of_nat (S (String.length s)) + 0) 0); [lia|].
  now rewrite Z.sub_diag.
Qed.

(** A string of decimal digits is no literal in another radix. *)
Lemma radix_literal_digits (s : string) :
  Forall is_digit (list_ascii_of_string s) -> radix_literal s = None.
Proof.
  intros Hd. unfold radix_literal.
  destruct s as [|c0 [|c [|d r]]]; try reflexivity;
    try (destruct (Ascii.eqb_spec c0 "0") as [->|Hn];
         [reflexivity
         | destruct c0 as [[|] [|] [|] [|] [|] [|] [|] [|]]; try reflexivity;
           congruence]).
  destruct (Ascii.eqb_spec c0 "0") as [->|Hn].
  - cbn in Hd. inversion Hd as [|? ? _ Hd']. inversion Hd' as [|? ? Hc _].
    unfold is_digit, digit_of in Hc.
    destruct (Z.leb_spec 48 (Z.of_N (N_of_ascii c))); cbn in Hc; [|congruence].
    destruct (Z.leb_spec (Z.of_N (N_of_ascii c)) 57); cbn in Hc; [|congruence].
    destruct (N.eqb_spec (N_of_ascii c) 120); [lia|].
    destruct (N.eqb_spec (N_of_ascii c) 88); [lia|].
    destruct (N.eqb_spec (N_of_ascii c) 111); [lia|].
    destruct (N.eqb_spec (N_of_ascii c) 79); [lia|].
    destruct (N.eqb_spec (N_of_ascii c) 98); [lia|].
    destruct (N.eqb_spec (N_of_ascii c) 66); [lia|].
    reflexivity.
  - destruct c0 as [[|] [|] [|] [|] [|] [|] [|] [|]]; try reflexivity;
      congruence.
Qed.

(** Reading back a printed integer gives the Number value of the
    integer. *)
Lemma Number_Z_to_string (n : Z) : Number_ (Z_to_string n) = Int n.
Proof.
  unfold Z_to_string. destruct n as [|p|p]; [reflexivity | |].
  - pose proof (Z_to_string_nonneg_digits (Z.pos p) ltac:(lia)) as Hd.
    unfold Z_to_string in Hd.
    cbn [Z.to_int NilZero.string_of_int] in *.
    assert (Hs : NilZero.string_of_uint (Pos.to_uint p)
                 = NilEmpty.string_of_uint (Pos.to_uint p)).
    { pose proof (DecimalPos.Unsigned.to_uint_nonnil p) as Hn.
      destruct (Pos.to_uint p); [now destruct Hn | reflexivity..]. }
    rewrite Hs in *.
    assert (Hne : NilEmpty.string_of_uint (Pos.to_uint p) <> "").
    { pose proof (DecimalPos.Unsigned.to_uint_nonnil p) as Hn.
      destruct (Pos.to_uint p); [now destruct Hn | discriminate..]. }
    unfold Number_. rewrite trim_id
      by (eapply Forall_impl; [exact Hd | apply digit_not_white]).
    pose proof (unsigned_of_digits false _ (Z.pos p) Hne Hd) as Hu.
    rewrite digits_0, DecimalPos.Unsigned.of_to in Hu. specialize (Hu eq_refl).
    rewrite of_decimal_Int in Hu by lia. cbn [cond_Zopp] in Hu.
    pose proof (radix_literal_digits _ Hd) as Hr.
    destruct (NilEmpty.string_of_uint (Pos.to_uint p)) as [|c s] eqn:Hc;
      [congruence|].
    inversion Hd as [|? ? Hdc _].
    destruct (Ascii.eqb_spec c "+") as [->|Hplus]; [now destruct Hdc|].
    destruct (Ascii.eqb_spec c "-") as [->|Hminus]; [now destruct Hdc|].
    rewrite <- Hu. clear -Hplus Hminus Hr.
    destruct c as [[|] [|] [|] [|] [|] [|] [|] [|]];
      try (rewrite Hr; reflexivity); congruence.
  - pose proof (Z_to_string_nonneg_digits (Z.pos p) ltac:(lia)) as Hd.
    unfold Z_to_string in Hd.
    cbn [Z.to_int NilZero.string_of_int] in *.
    assert (Hs : NilZero.string_of_uint (Pos.to_uint p)
                 = NilEmpty.string_of_uint (Pos.to_uint p)).
    { pose proof (DecimalPos.Unsigned.to_uint_nonnil p) as Hn.
      destruct (Pos.to_uint p); [now destruct Hn | reflexivity..]. }
    rewrite Hs in *.
    assert (Hne : NilEmpty.string_of_uint (Pos.to_uint p) <> "").
    { pose proof (DecimalPos.Unsigned.to_uint_nonnil p) as Hn.
      destruct (Pos.to_uint p); [now destruct Hn | discriminate..]. }
    pose proof (unsigned_of_digits true _ (Z.pos p) Hne Hd) as Hu.
    rewrite digits_0, DecimalPos.Unsigned.of_to in Hu. specialize (Hu eq_refl).
    rewrite of_decimal_Int in Hu by lia. cbn [cond_Zopp Z.opp] in Hu.
    unfold Number_. rewrite trim_id.
    + now rewrite Hu.
    + cbn. constructor; [reflexivity|].
      eapply Forall_impl; [exact Hd | apply digit_not_white].
Qed.

Lemma length_append (p q : string) :
  String.length (p +:+ q) = (String.length p + String.length q)%nat.
Proof.
  induction p as [|c p IH]; simpl;
    [reflexivity | now rewrite IH].
Qed.

Lemma index_char_first (ch : ascii) (p q : string) :
  Forall (fun c => c <> ch) (list_ascii_of_string p) ->
  String.index 0 (String ch "") (p +:+ String ch q) = Some (String.length p).
Proof.
  induction p as [|c p IH]; intros H.
  - simpl String.append. simpl String.length. simpl String.index.
    destruct (ascii_dec ch ch) as [_|Hne]; [|now destruct Hne].
    now destruct q.
  - inversion H as [|? ? Hc Hp]; subst.
    simpl String.append. simpl String.length. simpl String.index.
    destruct (ascii_dec ch c) as [Heq|_]; [now destruct Hc|].
    now rewrite (IH Hp).
Qed.

Lemma substring_skip (p s : string) (m : nat) :
  String.substring (String.length p) m (p +:+ s) = String.substring 0 m s.
Proof.
  induction p as [|c p IH]; simpl;
    [reflexivity | exact IH].
Qed.

Lemma substring_take (m r : string) :
  String.substring 0 (String.length m) (m +:+ r) = m.
Proof.
  induction m as [|c m IH]; simpl.
  - destruct r; reflexivity.
  - now rewrite IH.
Qed.

(** [s.substring(a, b)] with [0 <= a <= b <= length]. *)
Lemma substring_between (p m r : string) :
  substring (p +:+ m +:+ r) (Z.of_nat (String.length p))
    (Some (Z.of_nat (String.length p + String.length m)))
  = m.
Proof.
  unfold substring, clamp. rewrite !length_append.
  replace (Z.to_nat (Z.min (Z.max (Z.of_nat (String.length p)) 0)
             (Z.of_nat (String.length p + (String.length m + String.length r)))))
    with (String.length p) by lia.
  replace (Z.to_nat (Z.min
             (Z.max (Z.of_nat (String.length p + String.length m)) 0)
             (Z.of_nat (String.length p + (String.length m + String.length r)))))
    with (String.length p + String.length m)%nat by lia.
  rewrite Nat.min_l, Nat.max_r by lia.
  replace (String.length p + String.length m - String.length p)%nat
    with (String.length m) by lia.
  rewrite substring_skip. apply substring_take.
Qed.

(** [s.substring(a)] and [s.substring(a, undefined)]. *)
Lemma substring_from (p m : string) :
  substring (p +:+ m) (Z.of_nat (String.length p)) None = m.
Proof.
  unfold substring, clamp. rewrite !length_append.
  replace (Z.to_nat (Z.min (Z.max (Z.of_nat (String.length p)) 0)
             (Z.of_nat (String.length p + String.length m))))
    with (String.length p) by lia.
  rewrite Nat.min_l, Nat.max_r by lia.
  replace (String.length p + String.length m - String.length p)%nat
    with (String.length m) by lia.
  rewrite substring_skip. apply substring_all.
Qed.

Lemma indexOf_first (ch : ascii) (p q : string) :
  Forall (fun c => c <> ch) (list_ascii_of_string p) ->
  indexOf (p +:+ String ch q) (String ch "") = Z.of_nat (String.length p).
Proof. intros H. unfold indexOf. now rewrite index_char_first. Qed.


Lemma append_cons (c : ascii) (p q : string) :
  String c p +:+ q = String c (p +:+ q).
Proof. reflexivity. Qed.

Lemma append_assoc (p q r : string) : (p +:+ q) +:+ r = p +:+ (q +:+ r).
Proof.
  induction p as [|c p IH]; [reflexivity|].
  rewrite !append_cons. f_equal. exact IH.
Qed.

Lemma list_ascii_append (p q : string) :
  list_ascii_of_string (p +:+ q)
  = (list_ascii_of_string p ++ list_ascii_of_string q)%list.
Proof.
  induction p as [|c p IH]; [reflexivity|].
  rewrite append_cons. simpl. f_equal. exact IH.
Qed.

Lemma digits_avoid (ch : ascii) (s : string) :
  digit_of ch = None ->
  Forall is_digit (list_ascii_of_string s) ->
  Forall (fun c => c <> ch) (list_ascii_of_string s).
Proof.
  intros Hch H. eapply Forall_impl; [exact H|].
  intros c Hc ->. now destruct Hc.
Qed.

(** The text after the slash always starts with the slash, so line 91
    never sees ["*"]. *)
Lemma total_text_is_not_star (t : string) :
  String.eqb (substring (String "b" t) (indexOf (String "b" t) "/") None) "*"
  = false.
Proof.
  unfold substring, indexOf.
  destruct (String.index 0 "/" (String "b" t)) as [n|] eqn:Hix.
  - apply index_correct1 in Hix. cbn [String.length] in Hix.
    destruct (substring_one _ _ _ Hix) as [Hlt Hk].
    unfold clamp.
    replace (Z.to_nat (Z.min (Z.max (Z.of_nat n) 0)
               (Z.of_nat (String.length (String "b" t))))) with n by lia.
    rewrite Nat.min_l, Nat.max_r by lia.
    destruct (String.length (String "b" t) - n)%nat as [|k] eqn:Hd; [lia|].
    rewrite Hk. reflexivity.
  - unfold clamp. cbn [Z.max Z.min Z.to_nat].
    replace (Z.to_nat (Z.min 0 (Z.of_nat (String.length (String "b" t)))))
      with 0%nat by lia.
    rewrite Nat.min_l, Nat.max_r, Nat.sub_0_r by lia.
    rewrite substring_all. reflexivity.
Qed.

(** ** The parsers on well-formed headers *)

Lemma contentRange_of_digits (r : Response) (A B t : string) :
  Forall is_digit (list_ascii_of_string A) ->
  Forall is_digit (list_ascii_of_string B) ->
  get (headers r) "content-range"
  = Some ("bytes " +:+ A +:+ "-" +:+ B +:+ "/" +:+ t) ->
  contentRange r
  = inr (Some {| cr_start := Number_ A; cr_end := Number_ B; cr_total := NaN |}).
Proof.
  intros HA HB Hget. unfold contentRange. rewrite Hget.
  set (h := "bytes " +:+ A +:+ "-" +:+ B +:+ "/" +:+ t).
  assert (Hpre : startsWith h "bytes " = true).
  { unfold startsWith. subst h. rewrite !append_cons. cbn [String.prefix].
    repeat (destruct (ascii_dec _ _) as [_|Hne]; [|now destruct Hne]).
    match goal with |- String.prefix "" ?x = true => now destruct x end. }
  rewrite Hpre. cbn [negb].
  assert (Hdash : indexOf h "-" = Z.of_nat (String.length ("bytes " +:+ A))).
  { replace h with (("bytes " +:+ A) +:+ String "-" (B +:+ "/" +:+ t))
      by (subst h; now rewrite append_assoc).
    apply indexOf_first. rewrite list_ascii_append. apply Forall_app. split.
    - repeat constructor; discriminate.
    - now apply digits_avoid. }
  assert (Hslash : indexOf h "/"
                   = Z.of_nat (String.length ("bytes " +:+ A +:+ "-") + String.length B)).
  { replace h with ((("bytes " +:+ A +:+ "-") +:+ B) +:+ String "/" t)
      by (subst h; now rewrite !append_assoc).
    rewrite <- length_append.
    apply indexOf_first. rewrite !list_ascii_append.
    repeat (apply Forall_app; split); try (repeat constructor; discriminate);
      now apply digits_avoid. }
  assert (Hstart : substring h 6 (Some (indexOf h "-")) = A).
  { rewrite Hdash, length_append.
    replace h with ("bytes " +:+ A +:+ ("-" +:+ B +:+ "/" +:+ t)) by reflexivity.
    apply (substring_between "bytes " A). }
  assert (Hend : substring h (indexOf h "-" + 1) (Some (indexOf h "/")) = B).
  { rewrite Hdash, Hslash.
    replace (Z.of_nat (String.length ("bytes " +:+ A)) + 1)
      with (Z.of_nat (String.length ("bytes " +:+ A +:+ "-")))
      by (rewrite !length_append; cbn [String.length]; lia).
    replace h with (("bytes " +:+ A +:+ "-") +:+ B +:+ ("/" +:+ t))
      by (subst h; now rewrite !append_assoc).
    apply substring_between. }
  rewrite Hstart, Hend.
  change h with (String "b" ("ytes " +:+ A +:+ "-" +:+ B +:+ "/" +:+ t)).
  rewrite total_text_is_not_star, Number_b. reflexivity.
Qed.

(** X1.  Lines 78-92 on a well-formed header: for
    [bytes <a>-<b>/<anything>] with [a] and [b] printed in decimal, the
    parsed start is the Number value of [a] and the parsed end that of
    [b] ([a] and [b] themselves up to [2^53], the nearest doubles
    beyond); the total is [NaN] whatever follows the slash. *)
Theorem contentRange_reads_start_and_end
    (r : Response) (a b : Z) (t : string) :
  0 <= a -> 0 <= b ->
  get (headers r) "content-range"
  = Some ("bytes " +:+ Z_to_string a +:+ "-" +:+ Z_to_string b +:+ "/" +:+ t) ->
  contentRange r
  = inr (Some {| cr_start := Int a; cr_end := Int b; cr_total := NaN |}).
Proof.
  intros Ha Hb Hget.
  rewrite (contentRange_of_digits r _ _ t
             (Z_to_string_nonneg_digits a Ha) (Z_to_string_nonneg_digits b Hb) Hget).
  now rewrite !Number_Z_to_string.
Qed.

Lemma contentRange_reads_witness :
  contentRange (with_content_range "bytes 100-199/200")
  = inr (Some {| cr_start := Int 100; cr_end := Int 199; cr_total := NaN |}).
Proof.
  exact (contentRange_reads_start_and_end
           (with_content_range "bytes 100-199/200") 100 199 "200"
           ltac:(lia) ltac:(lia) eq_refl).
Defined.

Lemma index_char_absent (ch : ascii) (p : string) :
  Forall (fun c => c <> ch) (list_ascii_of_string p) ->
  String.index 0 (String ch "") p = None.
Proof.
  induction p as [|c p IH]; intros H; [reflexivity|].
  inversion H as [|? ? Hc Hp]; subst.
  simpl String.index.
  destruct (ascii_dec ch c) as [Heq|_]; [now destruct Hc|].
  now rewrite (IH Hp).
Qed.

Lemma range_of_digits (o : option object) (A B : string) (more : option string) :
  Forall is_digit (list_ascii_of_string A) ->
  Forall is_digit (list_ascii_of_string B) ->
  get (new_Headers (default [] o)) "range"
  = Some ("bytes=" +:+ A +:+ "-" +:+ B
          +:+ match more with Some m => String "," m | None => "" end) ->
  range o = Some {| start := NaN; end_ := Number_ B |}.
Proof.
  intros HA HB Hget. unfold range. rewrite Hget.
  set (tail := match more with Some m => String "," m | None => "" end).
  set (v := "bytes=" +:+ A +:+ "-" +:+ B +:+ tail).
  set (p := "bytes=" +:+ A +:+ "-").
  assert (Hv : v = p +:+ B +:+ tail) by (subst v p; now rewrite !append_assoc).
  assert (Hdash : indexOf v "-" = Z.of_nat (String.length ("bytes=" +:+ A))).
  { replace v with (("bytes=" +:+ A) +:+ String "-" (B +:+ tail))
      by (subst v; now rewrite append_assoc).
    apply indexOf_first. rewrite list_ascii_append. apply Forall_app. split.
    - repeat constructor; discriminate.
    - now apply digits_avoid. }
  assert (Hp : indexOf v "-" + 1 = Z.of_nat (String.length p)).
  { rewrite Hdash. subst p. rewrite !length_append. cbn [String.length]. lia. }
  assert (Hnocomma : Forall (fun c => c <> ","%char)
                       (list_ascii_of_string (p +:+ B))).
  { subst p. rewrite !list_ascii_append.
    repeat (apply Forall_app; split); try (repeat constructor; discriminate);
      now apply digits_avoid. }
  assert (Hstart : substring v 0 (Some (indexOf v "-")) = "bytes=" +:+ A).
  { rewrite Hdash.
    replace v with ("" +:+ ("bytes=" +:+ A) +:+ ("-" +:+ B +:+ tail))
      by (subst v; now rewrite !append_assoc).
    apply (substring_between "" ("bytes=" +:+ A)). }
  rewrite Hstart, Hp.
  change ("bytes=" +:+ A) with (String "b" ("ytes=" +:+ A)). rewrite Number_b.
  do 2 f_equal. f_equal.
  destruct more as [m|]; subst tail.
  - assert (Hcomma : indexOf v "," = Z.of_nat (String.length p + String.length B)).
    { rewrite Hv, <- append_assoc, <- length_append.
      now apply indexOf_first. }
    rewrite Hcomma.
    assert (Hlen : (0 < String.length p)%nat).
    { subst p. rewrite !length_append. cbn [String.length]. lia. }
    destruct (Z.eqb_spec (Z.max (Z.of_nat (String.length p + String.length B)) 0) 0);
      [lia|].
    replace (Z.max (Z.of_nat (String.length p + String.length B)) 0)
      with (Z.of_nat (String.length p + String.length B)) by lia.
    rewrite Hv. apply substring_between.
  - assert (Hcomma : indexOf v "," = -1).
    { unfold indexOf. rewrite Hv.
      replace (p +:+ B +:+ "") with (p +:+ B)
        by (rewrite <- append_assoc;
            generalize (p +:+ B); intros s; induction s as [|c s IH];
            [reflexivity | rewrite append_cons; now rewrite <- IH]).
      now rewrite index_char_absent. }
    rewrite Hcomma. cbn [Z.max Z.eqb].
    replace v with (p +:+ B).
    + apply substring_from.
    + rewrite Hv. f_equal.
      generalize B; intros s; induction s as [|c s IH];
        [reflexivity | rewrite append_cons; now rewrite <- IH].
Qed.

(** X2.  Lines 64-71 on a well-formed header: for [bytes=<a>-<b>],
    alone or followed by further comma-separated segments, the parsed end
    is the Number value of [b] ([b] itself up to [2^53], the nearest
    double beyond); the parsed start is [NaN], line 69 converting the
    text with its [bytes=] prefix. *)
Theorem range_reads_end_of_first_segment
    (o : option object) (a b : Z) (more : option string) :
  0 <= a -> 0 <= b ->
  get (new_Headers (default [] o)) "range"
  = Some ("bytes=" +:+ Z_to_string a +:+ "-" +:+ Z_to_string b
          +:+ match more with Some m => String "," m | None => "" end) ->
  range o = Some {| start := NaN; end_ := Int b |}.
Proof.
  intros Ha Hb Hget.
  rewrite (range_of_digits o _ _ more
             (Z_to_string_nonneg_digits a Ha) (Z_to_string_nonneg_digits b Hb) Hget).
  now rewrite Number_Z_to_string.
Qed.

Lemma range_reads_end_witness :
  range (Some [("Range", "bytes=5-99, 200-300")])
  = Some {| start := NaN; end_ := Int 99 |}.
Proof.
  exact (range_reads_end_of_first_segment
           (Some [("Range", "bytes=5-99, 200-300")]) 5 99 (Some " 200-300")
           ltac:(lia) ltac:(lia) eq_refl).
Defined.

(** X3.  Lines 64-71 on an open-ended header: for [bytes=<a>-] the
    parsed end is the number [0], so line 123 prints [0] after the dash
    of every retry's range. *)
Theorem open_ended_range_reads_end_zero
    (o : option object) (a : Z) (size : number) :
  0 <= a ->
  get (new_Headers (default [] o)) "range"
  = Some ("bytes=" +:+ Z_to_string a +:+ "-") ->
  range o = Some {| start := NaN; end_ := Int 0 |}
  /\ retry_range size (range o) = "bytes=" +:+ toString size +:+ "-0".
Proof.
  intros Ha Hget.
  assert (Hr : range o = Some {| start := NaN; end_ := Int 0 |}).
  { apply (range_of_digits o (Z_to_string a) "" None
             (Z_to_string_nonneg_digits a Ha) ltac:(constructor)).
    exact Hget. }
  split; [exact Hr|]. rewrite Hr. reflexivity.
Qed.

Lemma open_ended_range_witness :
  range (Some [("range", "bytes=100-")])
    = Some {| start := NaN; end_ := Int 0 |}
  /\ retry_range (Int 130) (range (Some [("range", "bytes=100-")]))
     = "bytes=" +:+ toString (Int 130) +:+ "-0".
Proof.
  exact (open_ended_range_reads_end_zero
           (Some [("range", "bytes=100-")]) 100 (Int 130)
           ltac:(lia) eq_refl).
Defined.

(** ** What one pump delivers *)

Lemma take_across (n : nat) (chunk rest : list Byte.byte) :
  take n (chunk ++ rest)
  = (take (Nat.min n (length chunk)) chunk ++ take (n - length chunk) rest)%list.
Proof.
  rewrite take_app. f_equal.
  destruct (Nat.le_ge_cases n (length chunk)) as [H|H].
  - now rewrite Nat.min_l.
  - rewrite Nat.min_r by exact H. now rewrite !take_ge.
Qed.

(** With a budget [l] that is not negative, the chunks of a body go
    through [transform] as the first [l] bytes of their concatenation,
    and the counters move by the number of bytes let through. *)
Lemma fold_transform_finite (cs : list (list Byte.byte)) :
  forall (s : session) (c l : Z),
    currentSize s = Int c -> bytesLeft s = Int l ->
    0 <= c -> 0 <= l -> c + l <= 2 ^ 53 ->
    let s' := fold_left transform cs s in
    let n := Z.min l (len (concat cs)) in
    delivered (trace s')
    = (delivered (trace s) ++ take (Z.to_nat l) (concat cs))%list
    /\ currentSize s' = Int (c + n)
    /\ bytesLeft s' = Int (l - n).
Proof.
  induction cs as [|chunk cs IH]; intros s c l Hc Hl Hc0 Hpos Hsafe; cbn zeta.
  - cbn [fold_left concat]. rewrite take_nil, app_nil_r.
    unfold len. cbn [length]. rewrite Z.min_r by lia.
    rewrite Z.add_0_r, Z.sub_0_r. auto.
  - cbn [fold_left concat].
    set (out := subarray chunk (bytesLeft s)).
    assert (Hout : out = take (Nat.min (Z.to_nat l) (length chunk)) chunk).
    { subst out. rewrite Hl. unfold subarray.
      rewrite ToIntegerOrInfinity_Int by lia.
      destruct (Z.ltb_spec l 0); [lia|]. f_equal. lia. }
    assert (Hn : len out = Z.min l (len chunk)).
    { subst out. rewrite Hl. apply subarray_length. lia. }
    assert (H0' : 0 <= len chunk) by (unfold len; lia).
    destruct (IH (transform s chunk) (c + len out) (l - len out))
      as (Hd & Hc' & Hl').
    + unfold transform. cbn [currentSize]. fold out. rewrite Hc.
      apply add_Int; lia.
    + unfold transform. cbn [bytesLeft]. fold out. rewrite Hl.
      apply sub_Int; lia.
    + lia.
    + lia.
    + lia.
    + cbn zeta in Hd, Hc', Hl'. rewrite Hd, Hc', Hl'.
      unfold transform at 1. cbn [trace]. fold out.
      rewrite delivered_app. cbn [delivered]. rewrite app_nil_r.
      rewrite len_app.
      assert (H0 : 0 <= len chunk /\ 0 <= len (concat cs)) by (unfold len; lia).
      split; [|split; f_equal; lia].
      rewrite <- app_assoc. f_equal. rewrite take_across, <- Hout. f_equal.
      f_equal. unfold len in *. lia.
Qed.

Lemma Int_not_infinity (n : Z) :
  Z.abs n <= 2 ^ 53 -> sub Infinity (Int n) = Infinity.
Proof.
  intros Hn. destruct (Z.eq_dec n 0) as [->|Hz]; [reflexivity|].
  destruct (Int_finite n Hz Hn) as (m & e & -> & _). reflexivity.
Qed.

(** With an unbounded budget every chunk goes through whole. *)
Lemma fold_transform_unbounded (cs : list (list Byte.byte)) :
  forall (s : session) (c : Z),
    bytesLeft s = Infinity -> currentSize s = Int c ->
    0 <= c -> c + len (concat cs) <= 2 ^ 53 ->
    let s' := fold_left transform cs s in
    delivered (trace s') = (delivered (trace s) ++ concat cs)%list
    /\ bytesLeft s' = Infinity
    /\ currentSize s' = Int (c + len (concat cs)).
Proof.
  induction cs as [|chunk cs IH]; intros s c Hl Hc Hc0 Hsafe; cbn zeta.
  - cbn [fold_left concat]. rewrite app_nil_r. unfold len. cbn.
    split; [reflexivity|]. split; [exact Hl|]. now rewrite Z.add_0_r.
  - cbn [fold_left concat] in *. rewrite len_app in Hsafe.
    assert (H0 : 0 <= len chunk /\ 0 <= len (concat cs)) by (unfold len; lia).
    assert (Hout : subarray chunk (bytesLeft s) = chunk).
    { rewrite Hl. unfold subarray. cbn [ToIntegerOrInfinity Infinity].
      rewrite Nat2Z.id. apply firstn_all. }
    destruct (IH (transform s chunk) (c + len chunk)) as (Hd & Hl' & Hc').
    + unfold transform. cbn [bytesLeft]. rewrite Hout, Hl.
      apply Int_not_infinity. unfold len in *. lia.
    + unfold transform. cbn [currentSize]. rewrite Hc, Hout.
      apply add_Int; unfold len in *; lia.
    + lia.
    + lia.
    + cbn zeta in Hd, Hl', Hc'. rewrite Hd, Hl', Hc'.
      unfold transform. cbn [trace]. rewrite Hout.
      rewrite delivered_app. cbn [delivered]. rewrite app_nil_r, <- app_assoc.
      split; [reflexivity|]. split; [reflexivity|].
      rewrite len_app. f_equal. lia.
Qed.

(** ** Sessions that are not interrupted *)

(** A first response that is accepted, has a body and ends cleanly: one
    request, one pump, [close], and the loop returns. *)
Lemma clean_session
    (h : gmap loc RequestInit) (l : loc) (d : Z) (first : attempt)
    (env : list attempt) (r : Response) (cr : option ContentRange) (bd : Body) :
  outcome first = Responds r ->
  accepted (status r) = true ->
  contentRange r = inr cr ->
  body r = Some bd ->
  ending bd = EndOfStream ->
  exists s0,
    currentSize s0 = initial_currentSize cr
    /\ bytesLeft s0 = initial_bytesLeft r cr
    /\ delivered (trace s0) = []
    /\ length (requests (trace s0)) = 1%nat
    /\ let s1 := fold_left transform (chunks bd) s0 in
       download h l d first env
       = {| promise := Resolved (headers r);
            final_heap := heap s0;
            final_channel := Closed;
            final_error := None;
            events := trace s1 ++ [EvClose];
            counters := Some (currentSize s1, bytesLeft s1);
            background := Returned;
            unused := env |}.
Proof.
  intros Hout Hacc Hcr Hbody Hend. unfold download.
  rewrite Hout, Hacc, Hcr. cbn [negb].
  set (s0 := {| currentSize := initial_currentSize cr;
                bytesLeft := initial_bytesLeft r cr;
                heap := _; channel := Writable; storedError := None;
                trace := _ |}).
  set (c := {| init := l; retryDelay := d; etag := _; requested := _ |}).
  exists s0. repeat (split; [reflexivity|]). cbn zeta.
  assert (Htry : try_block s0 r
                 = (set_channel Closed
                      (log EvClose (fold_left transform (chunks bd) s0)), Normal)).
  { unfold try_block, pipe. rewrite Hbody, Hend.
    change (channel s0) with Writable. cbn iota.
    now rewrite fold_transform_channel. }
  assert (Hloop : loop c s0 r (signal_aborted first) env
                  = (set_channel Closed
                       (log EvClose (fold_left transform (chunks bd) s0)),
                     Returned, env)).
  { destruct env; cbn [loop]; now rewrite Htry. }
  rewrite Hloop. cbn. now rewrite fold_transform_heap, fold_transform_error.
Qed.

(** X4.  A first response [206] or [200] with
    [Content-Range: bytes <a>-<b>/...] ([0 <= a <= b <= 2^53]) whose body ends
    cleanly: the session issues one request, hands the output channel
    exactly the first [b - a] bytes of the body, in order and unchanged,
    closes the channel and returns; [currentSize] ends at [a] plus the
    bytes delivered. *)
Theorem uninterrupted_ranged_download
    (h : gmap loc RequestInit) (l : loc) (d : Z) (first : attempt)
    (env : list attempt) (r : Response) (bd : Body) (a b : Z) (t : string) :
  outcome first = Responds r ->
  accepted (status r) = true ->
  get (headers r) "content-range"
  = Some ("bytes " +:+ Z_to_string a +:+ "-" +:+ Z_to_string b +:+ "/" +:+ t) ->
  0 <= a -> a <= b -> b <= 2 ^ 53 ->
  body r = Some bd ->
  ending bd = EndOfStream ->
  let run := download h l d first env in
  let n := Z.min (b - a) (len (concat (chunks bd))) in
  promise run = Resolved (headers r)
  /\ delivered (events run) = take (Z.to_nat (b - a)) (concat (chunks bd))
  /\ counters run = Some (Int (a + n), Int (b - a - n))
  /\ final_channel run = Closed
  /\ background run = Returned
  /\ length (requests (events run)) = 1%nat
  /\ unused run = env.
Proof.
  intros Hout Hacc Hget Ha Hab Hb Hbody Hend run n. subst run.
  assert (Hcr : contentRange r
                = inr (Some {| cr_start := Int a; cr_end := Int b; cr_total := NaN |})).
  { rewrite (contentRange_of_digits r _ _ t
               (Z_to_string_nonneg_digits a Ha)
               (Z_to_string_nonneg_digits b ltac:(lia)) Hget).
    now rewrite !Number_Z_to_string. }
  destruct (clean_session h l d first env r _ bd Hout Hacc Hcr Hbody Hend)
    as (s0 & Hc & Hl & Hd & Hq & ->).
  cbn [promise events counters final_channel background unused].
  destruct (fold_transform_finite (chunks bd) s0 a (b - a)) as (Hdel & Hc' & Hl').
  - exact Hc.
  - rewrite Hl. cbn. apply sub_Int; lia.
  - lia.
  - lia.
  - lia.
  - cbn zeta in Hdel, Hc', Hl'. fold n in Hc', Hl'.
    rewrite delivered_app, requests_app, Hdel, Hd, Hc', Hl',
      fold_transform_requests. cbn. rewrite app_nil_r, List.length_app, Hq.
    repeat split; reflexivity.
Qed.

Lemma uninterrupted_ranged_witness :
  let run := download (heap_with None) here 5000 (plays whole_range) [plays resumed] in
  let n := Z.min (9 - 0) (len (concat [resource10])) in
  promise run = Resolved (headers whole_range)
  /\ delivered (events run) = take (Z.to_nat (9 - 0)) (concat [resource10])
  /\ counters run = Some (Int (0 + n), Int (9 - 0 - n))
  /\ final_channel run = Closed
  /\ background run = Returned
  /\ length (requests (events run)) = 1%nat
  /\ unused run = [plays resumed].
Proof.
  exact (uninterrupted_ranged_download
           (heap_with None) here 5000 (plays whole_range) [plays resumed]
           whole_range {| chunks := [resource10]; ending := EndOfStream |}
           0 9 "10" eq_refl eq_refl eq_refl ltac:(lia) ltac:(lia) ltac:(lia)
           eq_refl eq_refl).
Defined.

(** X5.  A first response without [Content-Range] whose
    [Content-Length] is a positive decimal [n <= 2^53], ending cleanly: exactly
    the first [n] bytes of the body reach the channel, which is then
    closed; a body longer than announced is cut, a shorter one is
    delivered whole. *)
Theorem uninterrupted_sized_download
    (h : gmap loc RequestInit) (l : loc) (d : Z) (first : attempt)
    (env : list attempt) (r : Response) (bd : Body) (n : Z) :
  outcome first = Responds r ->
  accepted (status r) = true ->
  get (headers r) "content-range" = None ->
  get (headers r) "content-length" = Some (Z_to_string n) ->
  0 < n -> n <= 2 ^ 53 ->
  body r = Some bd ->
  ending bd = EndOfStream ->
  let run := download h l d first env in
  let m := Z.min n (len (concat (chunks bd))) in
  delivered (events run) = take (Z.to_nat n) (concat (chunks bd))
  /\ counters run = Some (Int m, Int (n - m))
  /\ final_channel run = Closed
  /\ background run = Returned
  /\ length (requests (events run)) = 1%nat.
Proof.
  intros Hout Hacc Hcr Hcl Hn Hb Hbody Hend run m. subst run.
  assert (Hcr' : contentRange r = inr None).
  { unfold contentRange. now rewrite Hcr. }
  destruct (clean_session h l d first env r _ bd Hout Hacc Hcr' Hbody Hend)
    as (s0 & Hc & Hl & Hd & Hq & ->).
  cbn [promise events counters final_channel background unused].
  destruct (fold_transform_finite (chunks bd) s0 0 n) as (Hdel & Hc' & Hl').
  - exact Hc.
  - rewrite Hl. cbn [initial_bytesLeft]. rewrite Hcl.
    cbn [Number_nullable]. rewrite Number_Z_to_string. unfold or_else.
    rewrite truthy_Int by lia.
    destruct (Z.eqb_spec n 0); [lia | reflexivity].
  - lia.
  - lia.
  - lia.
  - cbn zeta in Hdel, Hc', Hl'. fold m in Hc', Hl'.
    rewrite delivered_app, requests_app, Hdel, Hd, Hc', Hl',
      fold_transform_requests. cbn. rewrite app_nil_r, List.length_app, Hq.
    repeat split; reflexivity.
Qed.

Lemma uninterrupted_sized_witness :
  let r := {| status := 200; statusText := "OK";
              headers := [("Content-Length", "4")];
              body := Some {| chunks := [resource10]; ending := EndOfStream |} |} in
  let run := download (heap_with None) here 5000 (plays r) [] in
  let m := Z.min 4 (len (concat [resource10])) in
  delivered (events run) = take (Z.to_nat 4) (concat [resource10])
  /\ counters run = Some (Int m, Int (4 - m))
  /\ final_channel run = Closed
  /\ background run = Returned
  /\ length (requests (events run)) = 1%nat.
Proof.
  exact (uninterrupted_sized_download
           (heap_with None) here 5000
           (plays {| status := 200; statusText := "OK";
                     headers := [("Content-Length", "4")];
                     body := Some {| chunks := [resource10];
                                     ending := EndOfStream |} |})
           [] _ {| chunks := [resource10]; ending := EndOfStream |} 4
           eq_refl eq_refl eq_refl eq_refl ltac:(lia) ltac:(lia) eq_refl eq_refl).
Defined.

(** X6.  A first response without [Content-Range] whose
    [Content-Length] is absent, [0] or not a number ([Number(...) ||
    Infinity] on line 97): the budget is unbounded, so a body that ends
    cleanly reaches the channel whole and unchanged, whatever its
    length up to [2^53] bytes, which [currentSize] counts exactly, and
    the budget is still unbounded at the end. *)
Theorem uninterrupted_unsized_download
    (h : gmap loc RequestInit) (l : loc) (d : Z) (first : attempt)
    (env : list attempt) (r : Response) (bd : Body) :
  outcome first = Responds r ->
  accepted (status r) = true ->
  get (headers r) "content-range" = None ->
  truthy (Number_nullable (get (headers r) "content-length")) = false ->
  body r = Some bd ->
  ending bd = EndOfStream ->
  len (concat (chunks bd)) <= 2 ^ 53 ->
  let run := download h l d first env in
  delivered (events run) = concat (chunks bd)
  /\ counters run = Some (Int (len (concat (chunks bd))), Infinity)
  /\ final_channel run = Closed
  /\ background run = Returned
  /\ length (requests (events run)) = 1%nat.
Proof.
  intros Hout Hacc Hcr Hcl Hbody Hend Hlen run. subst run.
  assert (Hcr' : contentRange r = inr None).
  { unfold contentRange. now rewrite Hcr. }
  destruct (clean_session h l d first env r _ bd Hout Hacc Hcr' Hbody Hend)
    as (s0 & Hc & Hl & Hd & Hq & ->).
  cbn [promise events counters final_channel background unused].
  destruct (fold_transform_unbounded (chunks bd) s0 0) as (Hdel & Hl' & Hc').
  - rewrite Hl. cbn [initial_bytesLeft]. unfold or_else. now rewrite Hcl.
  - exact Hc.
  - lia.
  - lia.
  - cbn zeta in Hdel, Hc', Hl'.
    rewrite delivered_app, requests_app, Hdel, Hd, Hc', Hl',
      fold_transform_requests. cbn. rewrite app_nil_r, List.length_app, Hq.
    repeat split; reflexivity.
Qed.

Lemma uninterrupted_unsized_witness :
  let r := {| status := 200; statusText := "OK";
              headers := [("Content-Length", "0")];
              body := Some {| chunks := [resource10; bytes 3];
                              ending := EndOfStream |} |} in
  let run := download (heap_with None) here 5000 (plays r) [] in
  delivered (events run) = concat [resource10; bytes 3]
  /\ counters run = Some (Int (len (concat [resource10; bytes 3])), Infinity)
  /\ final_channel run = Closed
  /\ background run = Returned
  /\ length (requests (events run)) = 1%nat.
Proof.
  refine (uninterrupted_unsized_download
           (heap_with None) here 5000
           (plays {| status := 200; statusText := "OK";
                     headers := [("Content-Length", "0")];
                     body := Some {| chunks := [resource10; bytes 3];
                                     ending := EndOfStream |} |})
           [] _ {| chunks := [resource10; bytes 3]; ending := EndOfStream |}
           eq_refl eq_refl eq_refl eq_refl eq_refl eq_refl _).
  vm_compute. discriminate.
Defined.

(** ** The headers object across retries *)

Lemma set_prop_twice (k v v' : string) (o : object) :
  set_prop k v (set_prop k v' o) = set_prop k v o.
Proof.
  induction o as [|[k0 v0] o IH]; cbn.
  - now rewrite String.eqb_refl.
  - destruct (String.eqb k0 k) eqn:Hk; cbn; rewrite Hk; [reflexivity|].
    now rewrite IH.
Qed.

Lemma set_prop_swap (k k' v v' : string) (o : object) :
  k <> k' -> prop o k <> None ->
  set_prop k v (set_prop k' v' o) = set_prop k' v' (set_prop k v o).
Proof.
  intros Hne. induction o as [|[k0 v0] o IH]; intros Hin; cbn in *.
  - now destruct Hin.
  - destruct (String.eqb_spec k0 k) as [->|Hk].
    + destruct (String.eqb_spec k k') as [?|_]; [contradiction|].
      cbn. rewrite String.eqb_refl.
      destruct (String.eqb_spec k k') as [?|_]; [contradiction|]. reflexivity.
    + destruct (String.eqb_spec k0 k') as [->|Hk'].
      * cbn. rewrite String.eqb_refl.
        destruct (String.eqb_spec k' k) as [?|_]; [congruence|]. reflexivity.
      * cbn. destruct (String.eqb_spec k0 k) as [?|_]; [contradiction|].
        destruct (String.eqb_spec k0 k') as [?|_]; [contradiction|].
        now rewrite IH.
Qed.

(** X7.  Lines 121-125 applied to their own result: rebuilding a
    rebuilt headers object gives what rebuilding the original would, so
    [init.headers] holds the same keys, in the same order, after every
    retry, and only the [range] and [if-match] values change. *)
Theorem rebuilding_twice_is_rebuilding_once
    (o : option object) (size size' : number) (rg : option Range)
    (etag etag' : option string) :
  retry_headers (Some (retry_headers o size rg etag)) size' rg etag'
  = retry_headers o size' rg etag'.
Proof.
  unfold retry_headers. cbn [default]. unfold id.
  set (o0 := default [] o).
  rewrite (set_prop_swap "range" "if-match").
  - now rewrite !set_prop_twice.
  - discriminate.
  - rewrite prop_set_prop_eq. discriminate.
Qed.

Lemma rebuilds_entries (rg : option Range) (etag : option string)
    (qs : list object) :
  forall o,
    rebuilds rg etag o qs ->
    Forall (fun q => prop q "if-match" = Some (default "" etag)
                     /\ exists size, prop q "range" = Some (retry_range size rg))
           qs.
Proof.
  induction qs as [|q qs IH]; intros o Hre; [constructor|].
  destruct Hre as ((size & ->) & Hre). constructor.
  - destruct (retry_headers_props o size rg etag) as (Hr & Hm & _).
    split; [exact Hm|]. exists size. exact Hr.
  - eapply IH. exact Hre.
Qed.

(** The requests of a session, by the chain of rebuilt objects. *)
Lemma session_requests
    (h : gmap loc RequestInit) (l : loc) (d : Z) (first : attempt)
    (env : list attempt) (i : RequestInit) :
  h !! l = Some i ->
  let o0 := default [] (init_headers i) in
  exists qs,
    requests (events (download h l d first env)) = map Some (o0 :: qs)
    /\ rebuilds (range (Some o0)) (first_etag first) o0 qs.
Proof.
  intros Hi o0. unfold download, first_etag.
  assert (Hr : read_headers h l = init_headers i).
  { unfold read_headers. now rewrite Hi. }
  rewrite Hr. fold o0.
  rewrite (write_headers_first h l i Hi), read_headers_written.
  destruct (outcome first) as [|r]; [exists []; now split|].
  destruct (accepted (status r)); cbn [negb].
  2: { exists []. cbn [events]. rewrite refuse_requests. now split. }
  destruct (contentRange r) as [m|cr]; [exists []; now split|].
  set (s0 := {| currentSize := _; bytesLeft := _; heap := _;
                channel := Writable; storedError := None;
                trace := _ |}).
  set (c := {| init := l; retryDelay := d; etag := _; requested := _ |}).
  pose proof (loop_rebuilds h l i c env eq_refl s0 r (signal_aborted first)
                o0 eq_refl) as Hloop.
  destruct (loop c s0 r (signal_aborted first) env) as [[s' e] rest].
  destruct Hloop as (qs & o' & Hreq & Hre & _).
  exists qs. split; [exact Hreq | exact Hre].
Qed.

(** X8.  Lines 62 and 121-125 over a whole session: every request
    after the first carries, as own entries of [init.headers], an
    [if-match] holding the first response's [ETag] (or the empty string
    when it had none) and a [range] built from the end parsed from the
    caller's original header; later responses never change either. *)
Theorem every_retry_pins_etag_and_requested_end
    (h : gmap loc RequestInit) (l : loc) (d : Z) (first : attempt)
    (env : list attempt) (i : RequestInit) :
  h !! l = Some i ->
  let run := download h l d first env in
  let rg := range (Some (default [] (init_headers i))) in
  Forall (fun q => exists o,
            q = Some o
            /\ prop o "if-match" = Some (default "" (first_etag first))
            /\ exists size,
                 prop o "range"
                 = Some ("bytes=" +:+ toString size +:+ "-"
                         +:+ match rg with
                             | Some r => toString (end_ r)
                             | None => ""
                             end))
         (tail (requests (events run))).
Proof.
  intros Hi run rg. subst run rg.
  destruct (session_requests h l d first env i Hi) as (qs & -> & Hre).
  cbn [map tail].
  apply rebuilds_entries in Hre. induction Hre as [|q qs Hq _ IH]; cbn;
    constructor; [|exact IH].
  exists q. split; [reflexivity | exact Hq].
Qed.

Lemma every_retry_pins_witness :
  let run := download (heap_with (Some [("range", "bytes=100-199")])) here 5000
               (plays interrupted) [plays resumed; plays not_found] in
  let rg := range (Some [("range", "bytes=100-199")]) in
  Forall (fun q => exists o,
            q = Some o
            /\ prop o "if-match" = Some "v1"
            /\ exists size,
                 prop o "range"
                 = Some ("bytes=" +:+ toString size +:+ "-"
                         +:+ match rg with
                             | Some r => toString (end_ r)
                             | None => ""
                             end))
         (tail (requests (events run))).
Proof.
  exact (every_retry_pins_etag_and_requested_end
           (heap_with (Some [("range", "bytes=100-199")])) here 5000
           (plays interrupted) [plays resumed; plays not_found]
           {| init_headers := Some [("range", "bytes=100-199")];
              init_method := Some "GET" |} eq_refl).
Defined.

(** ** The [Range] header a retry sends *)

Lemma digit_plain (c : ascii) : is_digit c -> plain c.
Proof.
  unfold is_digit, digit_of, plain, is_http_white. intros H.
  destruct (Z.leb_spec 48 (Z.of_N (N_of_ascii c))); cbn in H; [|congruence].
  destruct (N.eqb_spec (N_of_ascii c) 9); destruct (N.eqb_spec (N_of_ascii c) 10);
    destruct (N.eqb_spec (N_of_ascii c) 13); destruct (N.eqb_spec (N_of_ascii c) 32);
    cbn; try reflexivity; lia.
Qed.

Lemma Z_to_string_plain (z : Z) :
  Forall plain (list_ascii_of_string (Z_to_string z)).
Proof.
  assert (Hpos : forall n, 0 <= n ->
            Forall plain (list_ascii_of_string (Z_to_string n))).
  { intros n Hn. eapply Forall_impl; [now apply Z_to_string_nonneg_digits|].
    apply digit_plain. }
  destruct z as [|p|p]; try (apply Hpos; lia).
  change (Z_to_string (Z.neg p)) with (String "-" (Z_to_string (Z.pos p))).
  cbn [list_ascii_of_string]. constructor; [reflexivity|]. apply Hpos. lia.
Qed.

Lemma append_plain (a b : string) :
  Forall plain (list_ascii_of_string a) ->
  Forall plain (list_ascii_of_string b) ->
  Forall plain (list_ascii_of_string (a +:+ b)).
Proof. intros Ha Hb. rewrite list_ascii_append. now apply Forall_app. Qed.

Lemma zeros_plain (n : nat) : Forall plain (list_ascii_of_string (zeros n)).
Proof. induction n; cbn; constructor; [reflexivity | assumption]. Qed.

Lemma first_chars_plain (n : nat) (s : string) :
  Forall plain (list_ascii_of_string s) ->
  Forall plain (list_ascii_of_string (first_chars n s)).
Proof.
  revert s. induction n as [|n IH]; intros [|c s] H; cbn; try constructor.
  - now inversion H.
  - apply IH. now inversion H.
Qed.

Lemma after_chars_plain (n : nat) (s : string) :
  Forall plain (list_ascii_of_string s) ->
  Forall plain (list_ascii_of_string (after_chars n s)).
Proof.
  revert s. induction n as [|n IH]; intros [|c s] H; cbn; try assumption.
  apply IH. now inversion H.
Qed.

Lemma layout_plain (ds : string) (n : Z) :
  Forall plain (list_ascii_of_string ds) ->
  Forall plain (list_ascii_of_string (layout ds n)).
Proof.
  intros H. unfold layout.
  repeat match goal with
         | |- context [if ?b then _ else _] => destruct b
         end;
    repeat first
      [ assumption
      | apply append_plain
      | apply zeros_plain
      | apply first_chars_plain
      | apply after_chars_plain
      | apply Z_to_string_plain
      | (cbn; repeat constructor; fail) ].
Qed.

(** What Number::toString prints holds no white space. *)
Lemma toString_plain (n : number) :
  Forall plain (list_ascii_of_string (toString n)).
Proof.
  destruct n as [s|s| |s m e]; cbn [toString].
  - repeat constructor.
  - destruct s; repeat constructor.
  - repeat constructor.
  - destruct (shortest 17 _ _ _ _ 1) as [d k].
    apply append_plain; [destruct s; repeat constructor|].
    apply layout_plain, Z_to_string_plain.
Qed.

Lemma retry_range_plain (size : number) (rg : option Range) :
  Forall plain (list_ascii_of_string (retry_range size rg)).
Proof.
  unfold retry_range. rewrite !list_ascii_append.
  repeat (apply Forall_app; split); try (repeat constructor; fail);
    try apply toString_plain.
  destruct rg; [apply toString_plain | constructor].
Qed.

Lemma drop_http_white_id (l : list ascii) :
  Forall plain l -> drop_http_white l = l.
Proof.
  intros H. destruct H as [|c l Hc _]; cbn; [reflexivity|].
  unfold plain in Hc. now rewrite Hc.
Qed.

Lemma normalize_id (s : string) :
  Forall plain (list_ascii_of_string s) -> normalize s = s.
Proof.
  intros H. unfold normalize. rewrite (drop_http_white_id _ H).
  rewrite drop_http_white_id by (apply List.Forall_rev; exact H).
  rewrite List.rev_involutive. apply string_of_list_ascii_of_string.
Qed.

Lemma get_range_entries (hs : Headers) :
  get hs "range"
  = match range_entries hs with
    | [] => None
    | es => Some (join (map snd es))
    end.
Proof. reflexivity. Qed.

Lemma range_entries_set_if_match (e : string) (o : object) :
  range_entries (new_Headers (set_prop "if-match" e o))
  = range_entries (new_Headers o).
Proof.
  unfold range_entries, new_Headers.
  induction o as [|[k v] o IH]; [reflexivity|].
  cbn [set_prop]. destruct (String.eqb_spec k "if-match") as [->|Hk].
  - reflexivity.
  - cbn [map List.filter fst snd]. rewrite IH. reflexivity.
Qed.

Lemma range_entries_none (o : object) :
  ~ In "range" (map fst o) ->
  (forall k, In k (map fst o) -> lowercase k = "range" -> k = "range") ->
  range_entries (new_Headers o) = [].
Proof.
  unfold range_entries, new_Headers.
  induction o as [|[k v] o IH]; intros Hno Hlow; [reflexivity|].
  cbn [map List.filter fst snd] in *.
  destruct (String.eqb_spec (lowercase k) (lowercase "range")) as [Heq|_].
  - exfalso. apply Hno. left. apply Hlow; [now left | exact Heq].
  - apply IH; [intros Hin; apply Hno; now right |].
    intros k' Hin. apply Hlow. now right.
Qed.

Lemma range_entries_set_range (x : string) (o : object) :
  List.NoDup (map fst o) ->
  (forall k, In k (map fst o) -> lowercase k = "range" -> k = "range") ->
  range_entries (new_Headers (set_prop "range" x o)) = [("range", normalize x)].
Proof.
  induction o as [|[k v] o IH]; intros Hnd Hlow; [reflexivity|].
  inversion Hnd as [|? ? Hnotin Hnd']; subst.
  cbn [set_prop]. destruct (String.eqb_spec k "range") as [->|Hk].
  - unfold range_entries, new_Headers. cbn [map List.filter fst snd].
    change (String.eqb (lowercase "range") (lowercase "range")) with true.
    cbn iota. f_equal.
    apply (range_entries_none o Hnotin).
    intros k' Hin. apply Hlow. now right.
  - unfold range_entries, new_Headers. cbn [map List.filter fst snd].
    destruct (String.eqb_spec (lowercase k) (lowercase "range")) as [Heq|_].
    + exfalso. apply Hk. apply Hlow; [now left | exact Heq].
    + apply IH; [exact Hnd'|]. intros k' Hin. apply Hlow. now right.
Qed.

(** X9.  Lines 121-126 for a caller whose headers object spells its
    range key in lower case, or has none: the [Range] header [fetch]
    sends with a retry is exactly
    [bytes=<currentSize>-<end parsed from the caller's header, or
    nothing>], one value and no other. *)
Theorem retry_sends_exactly_the_rebuilt_range
    (o : object) (size : number) (rg : option Range) (etag : option string) :
  List.NoDup (map fst o) ->
  (forall k, In k (map fst o) -> lowercase k = "range" -> k = "range") ->
  sent_range (Some (retry_headers (Some o) size rg etag))
  = Some (retry_range size rg).
Proof.
  intros Hnd Hlow. unfold sent_range, retry_headers. cbn [default]. unfold id.
  rewrite get_range_entries, range_entries_set_if_match,
    (range_entries_set_range _ o Hnd Hlow).
  cbn. f_equal. apply normalize_id, retry_range_plain.
Qed.

Lemma retry_sends_witness :
  sent_range (Some (retry_headers (Some [("Accept", "*/*"); ("range", "bytes=100-199")])
                      (Int 130) (range (Some [("range", "bytes=100-199")]))
                      (Some "v1")))
  = Some (retry_range (Int 130) (range (Some [("range", "bytes=100-199")]))).
Proof.
  refine (retry_sends_exactly_the_rebuilt_range
            [("Accept", "*/*"); ("range", "bytes=100-199")] (Int 130)
            (range (Some [("range", "bytes=100-199")])) (Some "v1") _ _).
  - repeat constructor; cbn; intuition discriminate.
  - intros k [<-|[<-|[]]]; [discriminate | reflexivity].
Defined.

Lemma In_set_prop_same (k v : string) (o : object) :
  In (k, v) (set_prop k v o).
Proof.
  induction o as [|[k0 v0] o IH]; cbn; [now left|].
  destruct (String.eqb_spec k0 k) as [->|_]; [now left | now right].
Qed.

Lemma In_set_prop_other (k v k0 v0 : string) (o : object) :
  k0 <> k -> In (k0, v0) o -> In (k0, v0) (set_prop k v o).
Proof.
  intros Hne. induction o as [|[k1 v1] o IH]; intros Hin; [destruct Hin|].
  cbn. destruct Hin as [[= -> ->]|Hin].
  - destruct (String.eqb_spec k0 k) as [?|_]; [contradiction | now left].
  - destruct (String.eqb k1 k); right; [exact Hin | now apply IH].
Qed.

Lemma In_range_entries (k v : string) (o : object) :
  In (k, v) o -> lowercase k = "range" ->
  In (k, normalize v) (range_entries (new_Headers o)).
Proof.
  intros Hin Hlow. unfold range_entries. apply filter_In. split.
  - unfold new_Headers. apply in_map_iff. exists (k, v). now split.
  - cbn [fst]. rewrite Hlow. reflexivity.
Qed.

Lemma join_two_has_space (v1 v2 : string) (vs : list string) :
  In " "%char (list_ascii_of_string (join (v1 :: v2 :: vs))).
Proof.
  change (join (v1 :: v2 :: vs)) with (v1 +:+ ", " +:+ join (v2 :: vs)).
  rewrite !list_ascii_append. apply in_or_app. right.
  apply in_or_app. left. cbn. auto.
Qed.

(** X10.  Lines 121-126 for a caller whose headers object holds a range
    key in another spelling (such as [Range]): the spread keeps that
    entry, [Headers] matches it and the rebuilt one, and the retry's
    [Range] header is two values or more joined by [", "], never the
    rebuilt range alone. *)
Theorem differently_cased_range_is_sent_too
    (o : object) (k v : string) (size : number) (rg : option Range)
    (etag : option string) :
  In (k, v) o -> k <> "range" -> lowercase k = "range" ->
  exists v1 v2 vs,
    sent_range (Some (retry_headers (Some o) size rg etag))
    = Some (join (v1 :: v2 :: vs))
    /\ join (v1 :: v2 :: vs) <> retry_range size rg.
Proof.
  intros Hin Hne Hlow. unfold sent_range, retry_headers. cbn [default]. unfold id.
  rewrite get_range_entries, range_entries_set_if_match.
  set (o1 := set_prop "range" (retry_range size rg) o).
  assert (H1 : In (k, normalize v) (range_entries (new_Headers o1))).
  { apply In_range_entries; [|exact Hlow]. now apply In_set_prop_other. }
  assert (H2 : In ("range", normalize (retry_range size rg))
                  (range_entries (new_Headers o1))).
  { apply In_range_entries; [|reflexivity]. apply In_set_prop_same. }
  destruct (range_entries (new_Headers o1)) as [|e1 [|e2 es]].
  - destruct H1.
  - destruct H1 as [->|[]]. destruct H2 as [[= Hk _]|[]]. now destruct Hne.
  - exists (snd e1), (snd e2), (map snd es). split; [reflexivity|].
    intros Heq.
    pose proof (join_two_has_space (snd e1) (snd e2) (map snd es)) as Hsp.
    rewrite Heq in Hsp.
    pose proof (retry_range_plain size rg) as Hpl.
    rewrite List.Forall_forall in Hpl. specialize (Hpl _ Hsp). discriminate Hpl.
Qed.

Lemma differently_cased_range_witness :
  exists v1 v2 vs,
    sent_range (Some (retry_headers (Some [("Range", "bytes=100-199")])
                        (Int 130) (range (Some [("Range", "bytes=100-199")]))
                        (Some "v1")))
    = Some (join (v1 :: v2 :: vs))
    /\ join (v1 :: v2 :: vs)
       <> retry_range (Int 130) (range (Some [("Range", "bytes=100-199")])).
Proof.
  exact (differently_cased_range_is_sent_too
           [("Range", "bytes=100-199")] "Range" "bytes=100-199" (Int 130)
           (range (Some [("Range", "bytes=100-199")])) (Some "v1")
           ltac:(now left) ltac:(discriminate) eq_refl).
Defined.

(** ** Sessions that fail *)

Lemma fold_transform_events (cs : list (list Byte.byte)) (s : session) :
  exists t, trace (fold_left transform cs s) = (trace s ++ t)%list
            /\ Forall pump_event t.
Proof.
  revert s. induction cs as [|c cs IH]; intros s.
  - exists []. now rewrite app_nil_r.
  - cbn [fold_left]. destruct (IH (transform s c)) as (t & -> & Ht).
    unfold transform. cbn [trace]. eexists. rewrite <- app_assoc.
    split; [reflexivity|]. constructor; [exact I | exact Ht].
Qed.

Lemma try_block_events (s : session) (r : Response) :
  exists t, trace (fst (try_block s r)) = (trace s ++ t)%list
            /\ Forall pump_event t.
Proof.
  unfold try_block, pipe.
  destruct (body r) as [b|].
  - destruct (channel s) eqn:Hs; cbn [fst];
      try (exists []; now rewrite app_nil_r).
    destruct (fold_transform_events (chunks b) s) as (t & Ht & Hp).
    pose proof (fold_transform_channel (chunks b) s) as Hc. rewrite Hs in Hc.
    destruct (ending b); cbn [fst].
    + rewrite Hc. cbn. rewrite Ht, <- app_assoc. eexists.
      split; [reflexivity|]. apply Forall_app. split; [exact Hp|].
      repeat constructor.
    + cbn. rewrite Ht, <- app_assoc. eexists.
      split; [reflexivity|]. apply Forall_app. split; [exact Hp|].
      repeat constructor.
    + cbn. now exists t.
  - destruct (channel s); cbn; eexists; (split; [reflexivity|]);
      repeat constructor.
Qed.

(** X11.  Lines 117-119 over a whole session: when the caller's
    signal is aborted as the first response is pumped, the session
    consists of the one request and that pump; the loop returns without
    a delay, a retry or an abort call of its own, whatever the
    environment would have answered. *)
Theorem aborted_signal_ends_the_session
    (h : gmap loc RequestInit) (l : loc) (d : Z) (first : attempt)
    (env : list attempt) (r : Response) (cr : option ContentRange) :
  outcome first = Responds r ->
  accepted (status r) = true ->
  contentRange r = inr cr ->
  signal_aborted first = true ->
  let run := download h l d first env in
  (exists o t, events run = EvFetch o :: t /\ Forall pump_event t)
  /\ length (requests (events run)) = 1%nat
  /\ background run = Returned
  /\ unused run = env.
Proof.
  intros Hout Hacc Hcr Hab run. subst run. unfold download.
  rewrite Hout, Hacc, Hcr, Hab. cbn [negb].
  set (s0 := {| currentSize := _; bytesLeft := _; heap := _;
                channel := Writable; storedError := None;
                trace := _ |}).
  set (c := {| init := l; retryDelay := d; etag := _; requested := _ |}).
  assert (Hloop : loop c s0 r true env = (fst (try_block s0 r), Returned, env)).
  { destruct env; cbn [loop]; destruct (try_block s0 r) as [s1 [|]]; reflexivity. }
  rewrite Hloop. cbn [events background unused].
  destruct (try_block_events s0 r) as (t & Ht & Hp).
  rewrite try_block_requests. repeat split.
  do 2 eexists. split; [rewrite Ht; reflexivity | exact Hp].
Qed.

Lemma aborted_signal_witness :
  let run := download (heap_with None) here 5000
               (plays_aborted interrupted) [plays resumed] in
  (exists o t, events run = EvFetch o :: t /\ Forall pump_event t)
  /\ length (requests (events run)) = 1%nat
  /\ background run = Returned
  /\ unused run = [plays resumed].
Proof.
  exact (aborted_signal_ends_the_session
           (heap_with None) here 5000 (plays_aborted interrupted)
           [plays resumed] interrupted _ eq_refl eq_refl eq_refl eq_refl).
Defined.

Lemma subarray_NaN (chunk : list Byte.byte) : subarray chunk NaN = [].
Proof.
  unfold subarray. cbn [ToIntegerOrInfinity NaN Z.ltb Z.compare].
  rewrite Z.min_l by lia. reflexivity.
Qed.

(** A budget that is [NaN] stays [NaN] and lets nothing through. *)
Lemma nan_transform (s : session) (chunk : list Byte.byte) :
  bytesLeft s = NaN ->
  bytesLeft (transform s chunk) = NaN
  /\ delivered (trace (transform s chunk)) = delivered (trace s).
Proof.
  intros H. unfold transform. cbn [bytesLeft trace]. rewrite H.
  rewrite subarray_NaN.
  split; [reflexivity|]. rewrite delivered_app. cbn. now rewrite !app_nil_r.
Qed.

Lemma nan_try_block (s : session) (r : Response) :
  bytesLeft s = NaN ->
  bytesLeft (fst (try_block s r)) = NaN
  /\ delivered (trace (fst (try_block s r))) = delivered (trace s).
Proof.
  intros H.
  assert (Hfold : forall cs s1, bytesLeft s1 = NaN ->
            bytesLeft (fold_left transform cs s1) = NaN
            /\ delivered (trace (fold_left transform cs s1))
               = delivered (trace s1)).
  { induction cs as [|c cs IH]; intros s1 H1; [now split|].
    cbn [fold_left]. destruct (nan_transform s1 c H1) as [Hb Hd].
    destruct (IH _ Hb) as [Hb' Hd']. split; [exact Hb' | congruence]. }
  unfold try_block, pipe.
  destruct (body r) as [b|].
  - destruct (channel s) eqn:Hs; cbn [fst]; try (now split).
    destruct (Hfold (chunks b) s H) as [Hb Hd].
    pose proof (fold_transform_channel (chunks b) s) as Hc. rewrite Hs in Hc.
    destruct (ending b); cbn [fst].
    + rewrite Hc. cbn. rewrite delivered_app. cbn. rewrite app_nil_r. now split.
    + cbn. rewrite delivered_app. cbn. rewrite app_nil_r. now split.
    + cbn. now split.
  - destruct (channel s); cbn; rewrite delivered_app; cbn;
      rewrite app_nil_r; now split.
Qed.

Lemma nan_loop (c : context) (env : list attempt) :
  forall (s : session) (r : Response) (aborted : bool),
    bytesLeft s = NaN ->
    bytesLeft (fst (fst (loop c s r aborted env))) = NaN
    /\ delivered (trace (fst (fst (loop c s r aborted env)))) = delivered (trace s).
Proof.
  induction env as [|a env IH]; intros s r aborted H; cbn [loop];
    destruct (nan_try_block s r H) as [Hb Hd];
    destruct (try_block s r) as [s1 [|]]; cbn [fst] in *; try (now split);
    destruct aborted; cbn [fst]; try (now split).
  - quiet_steps. now split.
  - destruct (outcome a) as [|r']; cbn [fst]; [quiet_steps; now split|].
    destruct (Z.eqb (status r') 206); cbn [fst].
    + destruct (IH (log (EvFetch (read_headers (heap (set_heap (write_headers
          (init c) (retry_headers (read_headers (heap (log (EvDelay
          (retryDelay c)) s1)) (init c)) (currentSize (log (EvDelay
          (retryDelay c)) s1)) (requested c) (etag c)) (heap (log (EvDelay
          (retryDelay c)) s1))) (log (EvDelay (retryDelay c)) s1)))
          (init c))) (set_heap (write_headers (init c) (retry_headers
          (read_headers (heap (log (EvDelay (retryDelay c)) s1)) (init c))
          (currentSize (log (EvDelay (retryDelay c)) s1)) (requested c)
          (etag c)) (heap (log (EvDelay (retryDelay c)) s1))) (log (EvDelay
          (retryDelay c)) s1))) r' (signal_aborted a) Hb) as [Hb' Hd'].
      split; [exact Hb'|]. rewrite Hd'. quiet_steps. exact Hd.
    + split.
      * unfold abort, cancel_body.
        destruct (body r'); cbn; destruct (channel s1); exact Hb.
      * quiet_steps. exact Hd.
Qed.

(** X12.  Lines 98 and 107: when the start or the end of the first
    response's [Content-Range] does not parse to a number (a header
    such as [bytes */200], which passes the unit test of line 80), the
    budget is [NaN], every chunk is cut to nothing, and the session
    never delivers a byte, retries included. *)
Theorem unparsable_range_delivers_nothing
    (h : gmap loc RequestInit) (l : loc) (d : Z) (first : attempt)
    (env : list attempt) (r : Response) (cr : option ContentRange) :
  outcome first = Responds r ->
  accepted (status r) = true ->
  contentRange r = inr cr ->
  initial_bytesLeft r cr = NaN ->
  let run := download h l d first env in
  promise run = Resolved (headers r)
  /\ delivered (events run) = []
  /\ exists size, counters run = Some (size, NaN).
Proof.
  intros Hout Hacc Hcr Hnan run. subst run. unfold download.
  rewrite Hout, Hacc, Hcr. cbn [negb].
  set (s0 := {| currentSize := _; bytesLeft := _; heap := _;
                channel := Writable; storedError := None;
                trace := _ |}).
  set (c := {| init := l; retryDelay := d; etag := _; requested := _ |}).
  destruct (nan_loop c env s0 r (signal_aborted first) Hnan) as [Hb Hd].
  destruct (loop c s0 r (signal_aborted first) env) as [[s e] rest].
  cbn in *. rewrite Hb. split; [reflexivity|]. split; [exact Hd|].
  eexists. reflexivity.
Qed.

Lemma unparsable_range_witness :
  let r := {| status := 206; statusText := "Partial Content";
              headers := [("Content-Range", "bytes */200")];
              body := Some {| chunks := [resource10]; ending := EndOfStream |} |} in
  let run := download (heap_with None) here 5000 (plays r) [] in
  promise run = Resolved (headers r)
  /\ delivered (events run) = []
  /\ exists size, counters run = Some (size, NaN).
Proof.
  exact (unparsable_range_delivers_nothing
           (heap_with None) here 5000
           (plays {| status := 206; statusText := "Partial Content";
                     headers := [("Content-Range", "bytes */200")];
                     body := Some {| chunks := [resource10];
                                     ending := EndOfStream |} |})
           [] _ _ eq_refl eq_refl eq_refl eq_refl).
Defined.

Lemma failing_body_throws (s : session) (r : Response) (b : Body) :
  body r = Some b -> ending b <> EndOfStream ->
  snd (try_block s r) = Throws.
Proof.
  intros Hb He. unfold try_block, pipe. rewrite Hb.
  destruct (channel s); try reflexivity.
  destruct (ending b); [contradiction | reflexivity | reflexivity].
Qed.

Lemma failed_loop_runs_out (c : context) (env : list attempt) :
  forall (s : session) (r : Response),
    channel s <> Closed ->
    snd (try_block s r) = Throws ->
    Forall resumable env ->
    let '(s', e, rest) := loop c s r false env in
    e = AwaitingFetch /\ rest = [] /\ channel s' = Errored
    /\ length (requests (trace s'))
       = (length (requests (trace s)) + length env)%nat.
Proof.
  induction env as [|a env IH]; intros s r Hc Ht Hall; cbn [loop];
    pose proof (try_block_throws_errored s (fst (try_block s r)) r Hc) as He;
    pose proof (try_block_requests s r) as Hr;
    destruct (try_block s r) as [s1 k]; cbn [fst snd] in *; subst k;
    specialize (He eq_refl).
  - cbn. rewrite requests_app, Hr. cbn. rewrite app_nil_r.
    repeat split; [exact He | lia].
  - apply Forall_cons in Hall as [(Hab & r' & Hout & Hst) Hall].
    rewrite Hout, Hst, Hab. cbn [Z.eqb Pos.eqb].
    match goal with
    | |- context [loop c ?s4 r' false env] =>
        assert (Hc4 : channel s4 = Errored) by exact He;
        assert (Hr4 : length (requests (trace s4))
                      = S (length (requests (trace s))))
          by (cbn; rewrite !requests_app, Hr; cbn;
              rewrite app_nil_r, length_app; cbn; lia);
        destruct (errored_try_block s4 r' Hc4) as (s5 & Ht5 & _);
        specialize (IH s4 r' ltac:(rewrite Hc4; discriminate)
                      ltac:(now rewrite Ht5) Hall);
        destruct (loop c s4 r' false env) as [[s' e] rest]
    end.
    destruct IH as (-> & -> & Hch & Hlen). repeat split; [exact Hch|].
    rewrite Hlen, Hr4. cbn. lia.
Qed.

(** X13.  Lines 102-131 with the [pipeTo] options of line 111: once
    the first body has failed, the output channel is errored, so every
    later pump is refused; as long as the signal is not aborted and the
    server answers [206], the loop delays and asks again, without end:
    each answer of the environment is used up, one request is sent for
    each, and the loop is left waiting for the next. *)
Theorem failed_pump_is_retried_without_end
    (h : gmap loc RequestInit) (l : loc) (d : Z) (first : attempt)
    (env : list attempt) (r : Response) (cr : option ContentRange)
    (b : Body) :
  outcome first = Responds r ->
  accepted (status r) = true ->
  contentRange r = inr cr ->
  signal_aborted first = false ->
  body r = Some b -> ending b <> EndOfStream ->
  Forall resumable env ->
  let run := download h l d first env in
  background run = AwaitingFetch
  /\ unused run = []
  /\ final_channel run = Errored
  /\ length (requests (events run)) = S (length env).
Proof.
  intros Hout Hacc Hcr Hab Hb He Hall run. subst run. unfold download.
  rewrite Hout, Hacc, Hcr, Hab. cbn [negb].
  set (s0 := {| currentSize := _; bytesLeft := _; heap := _;
                channel := Writable; storedError := None;
                trace := _ |}).
  set (c := {| init := l; retryDelay := d; etag := _; requested := _ |}).
  pose proof (failed_loop_runs_out c env s0 r ltac:(discriminate)
                (failing_body_throws s0 r b Hb He) Hall) as H.
  destruct (loop c s0 r false env) as [[s e] rest].
  cbn. exact H.
Qed.

Lemma resumable_plays (r : Response) : status r = 206 -> resumable (plays r).
Proof. intros H. split; [reflexivity|]. now exists r. Qed.

Lemma failed_pump_witness :
  let run := download (heap_with None) here 5000 (plays interrupted)
               [plays resumed; plays resumed; plays resumed] in
  background run = AwaitingFetch
  /\ unused run = []
  /\ final_channel run = Errored
  /\ length (requests (events run)) = 4%nat.
Proof.
  refine (failed_pump_is_retried_without_end
            (heap_with None) here 5000 (plays interrupted)
            [plays resumed; plays resumed; plays resumed]
            interrupted _ _ eq_refl eq_refl eq_refl eq_refl eq_refl _ _).
  - discriminate.
  - repeat constructor; now apply resumable_plays.
Defined.


(** ** Where a retry resumes *)

Lemma refuse_size (m : string) (r : Response) (s : session) :
  currentSize (abort m (cancel_body r s)) = currentSize s.
Proof.
  unfold abort, cancel_body.
  destruct (body r); cbn; destruct (channel s); reflexivity.
Qed.

Lemma errored_try_block_size (s : session) (r : Response) :
  channel s = Errored ->
  exists s1, try_block s r = (s1, Throws)
             /\ channel s1 = Errored
             /\ currentSize s1 = currentSize s.
Proof.
  intros Hs. unfold try_block, pipe.
  destruct (body r); cbn; rewrite Hs.
  - exists s. auto.
  - exists (log EvClose s). auto.
Qed.

(** Once the channel is errored, [currentSize] no longer moves. *)
Lemma errored_loop_size (c : context) (env : list attempt) :
  forall (s : session) (r : Response) (aborted : bool),
    channel s = Errored ->
    currentSize (fst (fst (loop c s r aborted env))) = currentSize s.
Proof.
  induction env as [|a env IH]; intros s r aborted Hs; cbn [loop];
    destruct (errored_try_block_size s r Hs) as (s1 & -> & Hc & Hd);
    destruct aborted; cbn [fst]; try exact Hd.
  destruct (outcome a) as [|r']; cbn [fst]; [exact Hd|].
  destruct (Z.eqb (status r') 206); cbn [fst].
  - rewrite IH by exact Hc. exact Hd.
  - rewrite refuse_size. exact Hd.
Qed.

Section Resume.

Variable h : gmap loc RequestInit.
Variable l : loc.
Variable i : RequestInit.

(** Every request the loop sends names, as the start of its range, the
    value [currentSize] has when the loop is left. *)
Lemma loop_resumes (c : context) (env : list attempt) :
  init c = l ->
  forall (s : session) (r : Response) (aborted : bool) (o : object),
    heap s = <[l := with_headers i o]> h ->
    channel s <> Closed ->
    let '(s', _, _) := loop c s r aborted env in
    exists qs : list object,
      requests (trace s') = (requests (trace s) ++ map Some qs)%list
      /\ Forall (fun q => prop q "range"
                          = Some (retry_range (currentSize s') (requested c)))
           qs.
Proof.
  intros Hl.
  induction env as [|a env IH]; intros s r aborted o Hs Hch; cbn [loop];
    pose proof (try_block_requests s r) as Hq;
    pose proof (try_block_heap s r) as Hh;
    pose proof (try_block_throws_errored s (fst (try_block s r)) r Hch) as He;
    destruct (try_block s r) as [s1 [|]]; cbn [fst] in Hq, Hh, He;
    rewrite Hs in Hh.
  1,3: exists []; cbn; rewrite Hq, app_nil_r; auto.
  - destruct aborted; exists []; cbn; rewrite ?requests_app, Hq; cbn;
      rewrite ?app_nil_r; auto.
  - destruct aborted.
    { exists []; cbn; rewrite Hq, app_nil_r; auto. }
    specialize (He eq_refl).
    set (o1 := retry_headers (Some o) (currentSize s1) (requested c) (etag c)).
    set (s2 := log (EvDelay (retryDelay c)) s1).
    assert (H2 : heap s2 = <[l := with_headers i o]> h) by exact Hh.
    assert (Hc2 : currentSize s2 = currentSize s1) by reflexivity.
    rewrite Hl, H2, Hc2, read_headers_written. fold o1.
    set (s3 := set_heap _ s2).
    assert (H3 : heap s3 = <[l := with_headers i o1]> h).
    { subst s3. cbn. apply write_headers_again. }
    rewrite H3, read_headers_written.
    set (s4 := log _ s3).
    assert (H4 : heap s4 = <[l := with_headers i o1]> h) by exact H3.
    assert (Hr4 : requests (trace s4) = (requests (trace s) ++ [Some o1])%list).
    { subst s4 s3 s2. cbn. rewrite !requests_app, Hq. cbn.
      now rewrite app_nil_r. }
    assert (Hc4 : channel s4 = Errored) by exact He.
    assert (Hz4 : currentSize s4 = currentSize s1) by reflexivity.
    assert (Ho1 : prop o1 "range"
                  = Some (retry_range (currentSize s4) (requested c))).
    { rewrite Hz4. apply (retry_headers_props o). }
    clearbody s4. clear s3 H3 s2 H2 Hc2 Hz4. clearbody o1.
    destruct (outcome a) as [|r'].
    + exists [o1]. rewrite Hr4. auto.
    + destruct (Z.eqb (status r') 206).
      * pose proof (IH s4 r' (signal_aborted a) o1 H4
                      ltac:(rewrite Hc4; discriminate)) as Hqs.
        pose proof (errored_loop_size c env s4 r' (signal_aborted a) Hc4) as Hz.
        destruct (loop c s4 r' (signal_aborted a) env) as [[s' e] rest].
        cbn [fst] in Hz. destruct Hqs as (qs & Hreq & Hall).
        exists (o1 :: qs).
        split; [rewrite Hreq, Hr4, <- app_assoc; reflexivity|].
        constructor; [now rewrite Hz | exact Hall].
      * exists [o1]. rewrite refuse_requests, refuse_size, Hr4. auto.
Qed.

End Resume.

(** X14.  Lines 95, 108 and 123 over a whole session: with a first
    response that gives the counters [c0] and [l0], integers with
    [0 <= c0], [0 <= l0] and [c0 + l0 <= 2^53], every request after the
    first asks for the range that begins at [c0] plus the number of
    bytes the output channel was handed, and ends as the caller's
    original header said. *)
Theorem retries_resume_where_delivery_stopped
    (h : gmap loc RequestInit) (l : loc) (d : Z) (first : attempt)
    (env : list attempt) (i : RequestInit) (r : Response)
    (cr : option ContentRange) (c0 l0 : Z) :
  h !! l = Some i ->
  outcome first = Responds r ->
  accepted (status r) = true ->
  contentRange r = inr cr ->
  initial_currentSize cr = Int c0 ->
  initial_bytesLeft r cr = Int l0 ->
  0 <= c0 -> 0 <= l0 -> c0 + l0 <= 2 ^ 53 ->
  let run := download h l d first env in
  let rg := range (Some (default [] (init_headers i))) in
  let D := len (delivered (events run)) in
  Forall (fun q => exists o,
            q = Some o
            /\ prop o "range"
               = Some ("bytes=" +:+ toString (Int (c0 + D)) +:+ "-"
                       +:+ match rg with
                           | Some r => toString (end_ r)
                           | None => ""
                           end))
         (tail (requests (events run))).
Proof.
  intros Hi Hout Hacc Hcr Hc Hb Hc0 Hl0 Hsafe run rg D.
  destruct (tracked_session h l d first env r cr c0 l0 Hout Hacc Hcr Hc Hb
              Hc0 Hl0 Hsafe) as (Hcnt & _). fold run in Hcnt. fold D in Hcnt.
  clearbody D. subst run rg. revert Hcnt. unfold download.
  assert (Hr : read_headers h l = init_headers i).
  { unfold read_headers. now rewrite Hi. }
  rewrite Hr, (write_headers_first h l i Hi), read_headers_written.
  rewrite Hout, Hacc, Hcr. cbn [negb].
  set (o0 := default [] (init_headers i)).
  set (s0 := {| currentSize := _; bytesLeft := _; heap := _;
                channel := Writable; storedError := None;
                trace := _ |}).
  set (c := {| init := l; retryDelay := d; etag := _; requested := _ |}).
  pose proof (loop_resumes h l i c env eq_refl s0 r (signal_aborted first)
                o0 eq_refl ltac:(discriminate)) as Hloop.
  destruct (loop c s0 r (signal_aborted first) env) as [[s' e] rest].
  destruct Hloop as (qs & Hreq & Hall). cbn [counters events].
  intros [= Hsize _]. rewrite Hreq. cbn [requests trace s0 app tail].
  rewrite Hsize in Hall. clear -Hall.
  induction Hall as [|q qs Hq _ IH]; [constructor|].
  cbn [map]. constructor; [|exact IH]. now exists q.
Qed.

Lemma retries_resume_witness :
  let run := download (heap_with (Some [("range", "bytes=100-199")])) here 5000
               (plays interrupted) [plays resumed; plays resumed] in
  let rg := range (Some [("range", "bytes=100-199")]) in
  let D := len (delivered (events run)) in
  Forall (fun q => exists o,
            q = Some o
            /\ prop o "range"
               = Some ("bytes=" +:+ toString (Int (100 + D)) +:+ "-"
                       +:+ match rg with
                           | Some r => toString (end_ r)
                           | None => ""
                           end))
         (tail (requests (events run))).
Proof.
  exact (retries_resume_where_delivery_stopped
           (heap_with (Some [("range", "bytes=100-199")])) here 5000
           (plays interrupted) [plays resumed; plays resumed]
           {| init_headers := Some [("range", "bytes=100-199")];
              init_method := Some "GET" |}
           interrupted _ 100 99 eq_refl eq_refl eq_refl eq_refl eq_refl eq_refl
           ltac:(lia) ltac:(lia) ltac:(lia)).
Defined.

(** ** Instances of the general properties *)

Lemma other_unit_witness :
  let run := download (heap_with None) here 5000 (plays other_unit) [] in
  promise run
    = Rejected (TypeError ("Content-Range header has unsupported unit: "
                           +:+ "items 0-9/10"))
  /\ final_channel run = Writable
  /\ (exists o, events run = [EvFetch o])
  /\ background run = NotStarted.
Proof.
  exact (other_unit_always_rejects (heap_with None) here 5000
           (plays other_unit) [] other_unit "items 0-9/10"
           eq_refl eq_refl eq_refl eq_refl).
Defined.

Lemma total_is_NaN_witness :
  exists s e,
    contentRange (with_content_range "bytes 0-9/*")
    = inr (Some {| cr_start := s; cr_end := e; cr_total := NaN |}).
Proof.
  exact (contentRange_total_is_always_NaN
           (with_content_range "bytes 0-9/*") "bytes 0-9/*" eq_refl eq_refl).
Defined.

Lemma start_is_NaN_witness :
  exists e,
    range (Some [("range", "bytes=0-999")])
    = Some {| start := NaN; end_ := e |}.
Proof.
  exact (range_start_is_always_NaN (Some [("range", "bytes=0-999")])
           "bytes=0-999" eq_refl eq_refl eq_refl).
Defined.

Lemma short_of_range_witness :
  len (delivered (events (download (heap_with None) here 5000
                            (plays whole_range) [])))
  < 9 - 0 + 1.
Proof.
  refine (delivered_short_of_declared_range (heap_with None) here 5000
            (plays whole_range) [] whole_range
            {| cr_start := Int 0; cr_end := Int 9; cr_total := NaN |} 0 9
            eq_refl eq_refl eq_refl eq_refl eq_refl _ _ _); lia.
Defined.
